(** * LSB steganography codec of the Steganography-Tool (src/main.cpp)

    A shallow embedding of [Steganography::embedBit], [extractBit], [encode]
    and [decode], and the properties of the bit-level codec.

    Conventions of the embedding.
    - [sf::Uint8], [uint32_t], [uint64_t] and [unsigned int] values are
      integers of [Z]; every place where the C++ arithmetic is performed in
      a fixed width is written with [wrap32] / [wrap64].  [unsigned int] is
      taken to be 32 bits wide, as on every platform SFML supports.
    - a [char] of the secret file is represented by its 8-bit pattern
      (0..255).  The source only ever looks at bits 0..7 of a byte
      ([(byte >> i) & 1] for [i < 8]) and only ever sets bits 0..7
      ([currentByte |= (1 << bit_i)]), so the signedness of [char] does not
      influence any bit that is embedded or extracted.
    - the file-system steps of [encode] and [decode] (loading the carrier,
      reading the secret file, saving the result) are outside the codec;
      [encode] and [decode] below start from the loaded image and the bytes
      of the secret file and end with the image handed to [saveToFile],
      respectively the bytes handed to [outputFile.write].
    - [sf::Image::getPixel] and [setPixel] do not check their coordinates;
      a call outside the image is undefined behaviour in C++.  The embedding
      makes such a call observable: it stops the run with [OutOfRange x y]. *)

From Stdlib Require Import ZArith Lia String.
From stdpp Require Import base list.

Local Open Scope Z_scope.

(** ** Runs that may leave the pixel array *)

Inductive outcome (A : Type) : Type :=
| Done (v : A)
| OutOfRange (x y : Z).
Arguments Done {A} v.
Arguments OutOfRange {A} x y.

#[export] Instance outcome_ret : MRet outcome := fun A v => Done v.
#[export] Instance outcome_bind : MBind outcome := fun A B k m =>
  match m with
  | Done v => k v
  | OutOfRange x y => OutOfRange x y
  end.

(** ** The part of SFML the codec uses *)

Module sf.

(** Modelled from the spec: [sf::Color] is declared by SFML, not by this
    repository.  A pixel has the three colour channels the codec works on
    and an alpha channel it never touches, each an 8-bit unsigned value. *)
Record Color : Type := mkColor { r : Z; g : Z; b : Z; a : Z }.

(** Modelled from the spec: [sf::Image] is declared by SFML, not by this
    repository.  A pixel buffer has a width, a height and a logically
    two-dimensional array of pixels, stored row by row. *)
Record Image : Type := mkImage { size_x : Z; size_y : Z; pixels : list Color }.

Definition contains (img : Image) (x y : Z) : bool :=
  (0 <=? x) && (x <? size_x img) && (0 <=? y) && (y <? size_y img).

(** [Image::getPixel(x, y)] *)
Definition getPixel (img : Image) (x y : Z) : outcome Color :=
  if contains img x y then
    match pixels img !! Z.to_nat (x + y * size_x img) with
    | Some color => Done color
    | None => OutOfRange x y
    end
  else OutOfRange x y.

(** [Image::setPixel(x, y, color)] *)
Definition setPixel (img : Image) (x y : Z) (color : Color) : outcome Image :=
  if contains img x y then
    Done (mkImage (size_x img) (size_y img)
            (<[Z.to_nat (x + y * size_x img) := color]> (pixels img)))
  else OutOfRange x y.

End sf.

(** An image as [loadFromFile] delivers it: positive dimensions that fit
    [unsigned int], one pixel per coordinate, and a pixel array (four bytes
    per pixel) that fits the 64-bit address space. *)
Record wf_image (img : sf.Image) : Prop := mk_wf_image {
  wf_width : 1 <= sf.size_x img < 2 ^ 32;
  wf_height : 1 <= sf.size_y img < 2 ^ 32;
  wf_pixels : Z.of_nat (length (sf.pixels img)) = sf.size_x img * sf.size_y img;
  wf_memory : sf.size_x img * sf.size_y img * 4 < 2 ^ 64
}.

(** ** Fixed-width arithmetic *)

Definition wrap32 (z : Z) : Z := z mod 2 ^ 32.
Definition wrap64 (z : Z) : Z := z mod 2 ^ 64.

(** Conversion of an [int] to [bool]: every non-zero value is [true]. *)
Definition to_bool (z : Z) : bool := negb (z =? 0).

(** ** The codec *)

Module Steganography.

(** [void embedBit(sf::Uint8& colorChannel, bool bit)].  [~1] is the [int]
    -2; on an 8-bit operand both branches stay within 0..255 (lemma
    [embedBit_range]), so the conversion back to [sf::Uint8] changes nothing. *)
Definition embedBit (colorChannel : Z) (bit : bool) : Z :=
  if bit then Z.lor colorChannel 1
  else Z.land colorChannel (Z.lnot 1).

(** [bool extractBit(const sf::Uint8& colorChannel)] *)
Definition extractBit (colorChannel : Z) : bool :=
  to_bool (Z.land colorChannel 1).

(** [uint64_t capacity = (uint64_t)imageSize.x * imageSize.y * 3] *)
Definition capacity (img : sf.Image) : Z :=
  wrap64 (wrap64 (sf.size_x img * sf.size_y img) * 3).

(** The body shared by the two embedding loops of [encode] (lines 60-74 and
    80-94): locate the pixel of [bitIndex], overwrite the least-significant
    bit of one channel, store the pixel, advance the cursor.  [pos.x] and
    [pos.y] are [unsigned int]; for a cursor below 2^32 neither wraps. *)
Definition embed_at (carrierImage : sf.Image) (bitIndex : Z) (bit : bool)
  : outcome (sf.Image * Z) :=
  let imageSize_x := sf.size_x carrierImage in
  let pos_x := (bitIndex / 3) mod imageSize_x in
  let pos_y := (bitIndex / 3) / imageSize_x in
  color ← sf.getPixel carrierImage pos_x pos_y;
  let color :=
    match bitIndex mod 3 with
    | 0 => sf.mkColor (embedBit (sf.r color) bit) (sf.g color) (sf.b color) (sf.a color)
    | 1 => sf.mkColor (sf.r color) (embedBit (sf.g color) bit) (sf.b color) (sf.a color)
    | 2 => sf.mkColor (sf.r color) (sf.g color) (embedBit (sf.b color) bit) (sf.a color)
    | _ => color
    end in
  carrierImage ← sf.setPixel carrierImage pos_x pos_y color;
  mret (carrierImage, wrap32 (bitIndex + 1)).

(** [for (int i = ..; i < ..; ++i) { bool bit = (value >> i) & 1; ... }]:
    [count] iterations are left, [i] is the current bit number.  With
    [count = 32] and [value = secretSize] this is the header loop, with
    [count = 8] and [value = byte] the inner loop over one secret byte. *)
Fixpoint embed_value (count : nat) (i : Z) (value : Z)
    (carrierImage : sf.Image) (bitIndex : Z) : outcome (sf.Image * Z) :=
  match count with
  | O => mret (carrierImage, bitIndex)
  | S count =>
      let bit := to_bool (Z.land (Z.shiftr value i) 1) in
      '(carrierImage, bitIndex) ← embed_at carrierImage bitIndex bit;
      embed_value count (i + 1) value carrierImage bitIndex
  end.

(** [for (char byte : secretData) { for (int i = 0; i < 8; ++i) ... }] *)
Fixpoint embed_data (secretData : list Z) (carrierImage : sf.Image) (bitIndex : Z)
  : outcome (sf.Image * Z) :=
  match secretData with
  | [] => mret (carrierImage, bitIndex)
  | byte :: secretData =>
      '(carrierImage, bitIndex) ← embed_value 8 0 byte carrierImage bitIndex;
      embed_data secretData carrierImage bitIndex
  end.

Inductive EncodeResult : Type :=
| InsufficientCapacity (carrierImage : sf.Image)
    (** returned before the loops; carries the buffer as it is then *)
| Encoded (carrierImage : sf.Image)
    (** the buffer handed to [saveToFile] *)
| EncodeOutOfRange (x y : Z).

(** [Steganography::encode], lines 43-96. *)
Definition encode (carrierImage : sf.Image) (secretData : list Z) : EncodeResult :=
  let secretSize := wrap32 (Z.of_nat (length secretData)) in
  let capacity := capacity carrierImage in
  let requiredBits := wrap64 (4 * 8 + wrap64 (secretSize * 8)) in
  if capacity <? requiredBits then InsufficientCapacity carrierImage
  else
    match '(carrierImage, bitIndex) ← embed_value 32 0 secretSize carrierImage 0;
          embed_data secretData carrierImage bitIndex
    with
    | Done (carrierImage, _) => Encoded carrierImage
    | OutOfRange x y => EncodeOutOfRange x y
    end.

(** The body shared by the two extraction loops of [decode] (lines 118-128
    and 151-162), with the cursor increment that follows it. *)
Definition extract_at (stegoImage : sf.Image) (bitIndex : Z) : outcome (bool * Z) :=
  let imageSize_x := sf.size_x stegoImage in
  let pos_x := (bitIndex / 3) mod imageSize_x in
  let pos_y := (bitIndex / 3) / imageSize_x in
  color ← sf.getPixel stegoImage pos_x pos_y;
  let bit :=
    match bitIndex mod 3 with
    | 0 => extractBit (sf.r color)
    | 1 => extractBit (sf.g color)
    | 2 => extractBit (sf.b color)
    | _ => false
    end in
  mret (bit, wrap32 (bitIndex + 1)).

(** [for (int i = ..; i < ..; ++i) { ...; if (bit) value |= (1 << i); }]
    where [value] has the width given by [modulus] (2^32 for [secretSize],
    2^8 for [currentByte]).  [1 << 31] is the [int] with only the sign bit
    set; or-ed into the [uint32_t] it sets bit 31. *)
Fixpoint extract_value (modulus : Z) (count : nat) (i : Z) (value : Z)
    (stegoImage : sf.Image) (bitIndex : Z) : outcome (Z * Z) :=
  match count with
  | O => mret (value, bitIndex)
  | S count =>
      '(bit, bitIndex) ← extract_at stegoImage bitIndex;
      let value := if bit : bool then Z.lor value (Z.shiftl 1 i) mod modulus else value in
      extract_value modulus count (i + 1) value stegoImage bitIndex
  end.

(** [for (uint32_t byte_i = 0; byte_i < secretSize; ++byte_i) { ...;
    secretData.push_back(currentByte); }], [count] iterations left. *)
Fixpoint extract_data (count : nat) (stegoImage : sf.Image) (bitIndex : Z)
    (secretData : list Z) : outcome (list Z) :=
  match count with
  | O => mret secretData
  | S count =>
      '(currentByte, bitIndex) ← extract_value (2 ^ 8) 8 0 0 stegoImage bitIndex;
      extract_data count stegoImage bitIndex (secretData ++ [currentByte])
  end.

Inductive DecodeResult : Type :=
| InvalidLength
| EmptyPayload
| Decoded (secretData : list Z)
    (** the bytes handed to [outputFile.write] *)
| DecodeOutOfRange (x y : Z).

(** [Steganography::decode], lines 112-170. *)
Definition decode (stegoImage : sf.Image) : DecodeResult :=
  match extract_value (2 ^ 32) 32 0 0 stegoImage 0 with
  | OutOfRange x y => DecodeOutOfRange x y
  | Done (secretSize, bitIndex) =>
      let capacity := capacity stegoImage in
      if wrap64 (wrap64 (secretSize * 8) + 32) >? capacity then InvalidLength
      else if secretSize =? 0 then EmptyPayload
      else
        match extract_data (Z.to_nat secretSize) stegoImage bitIndex [] with
        | Done secretData => Decoded secretData
        | OutOfRange x y => DecodeOutOfRange x y
        end
  end.

(** The status line [decode] returns for the results the codec itself
    decides (lines 139, 142 and 179, the latter without the output path). *)
Definition decode_status (res : DecodeResult) : option string :=
  match res with
  | InvalidLength =>
      Some "Error: Decoded size is invalid or larger than image capacity."%string
  | EmptyPayload =>
      Some "Warning: Decoded size is 0. Nothing to extract."%string
  | Decoded _ => Some "Success! Decoded data saved to "%string
  | DecodeOutOfRange _ _ => None
  end.

(** The bytes [decode] writes to the output file; the two early returns
    come before the file is opened and write nothing. *)
Definition extracted (res : DecodeResult) : list Z :=
  match res with
  | Decoded secretData => secretData
  | _ => []
  end.

End Steganography.

(** ** The linear view of the pixel array

    Slot [s] is channel [s mod 3] of the pixel with row-major index
    [s / 3].  These definitions are the vocabulary of the statements; the
    codec above never uses them. *)

(** Number of slots of an image, as a mathematical integer. *)
Definition capacityBits (img : sf.Image) : Z :=
  sf.size_x img * sf.size_y img * 3.

Definition channel (color : sf.Color) (k : Z) : Z :=
  match k with
  | 0 => sf.r color
  | 1 => sf.g color
  | _ => sf.b color
  end.

Definition with_channel (color : sf.Color) (k : Z) (v : Z) : sf.Color :=
  match k with
  | 0 => sf.mkColor v (sf.g color) (sf.b color) (sf.a color)
  | 1 => sf.mkColor (sf.r color) v (sf.b color) (sf.a color)
  | 2 => sf.mkColor (sf.r color) (sf.g color) v (sf.a color)
  | _ => color
  end.

(** The channel byte stored in slot [s] (0 where the array has no such slot). *)
Definition slot (img : sf.Image) (s : Z) : Z :=
  match sf.pixels img !! Z.to_nat (s / 3) with
  | Some color => channel color (s mod 3)
  | None => 0
  end.

Definition set_slot (img : sf.Image) (s : Z) (v : Z) : sf.Image :=
  match sf.pixels img !! Z.to_nat (s / 3) with
  | Some color =>
      sf.mkImage (sf.size_x img) (sf.size_y img)
        (<[Z.to_nat (s / 3) := with_channel color (s mod 3) v]> (sf.pixels img))
  | None => img
  end.

(** The hidden bit of slot [s]. *)
Definition lsb (img : sf.Image) (s : Z) : bool := Z.testbit (slot img s) 0.

(** The alpha channel of the pixel with row-major index [p]. *)
Definition alpha (img : sf.Image) (p : nat) : option Z :=
  sf.a <$> sf.pixels img !! p.

(** ** The bit stream of the wire format *)

(** Bits [i], [i+1], ..., [i+count-1] of [value]. *)
Fixpoint bits_from (count : nat) (i : Z) (value : Z) : list bool :=
  match count with
  | O => []
  | S count => Z.testbit value i :: bits_from count (i + 1) value
  end.

Fixpoint data_bits (secretData : list Z) : list bool :=
  match secretData with
  | [] => []
  | byte :: secretData => bits_from 8 0 byte ++ data_bits secretData
  end.

(** Embedding a stream of bits, one slot after the other. *)
Fixpoint embed_stream (bits : list bool) (carrierImage : sf.Image) (bitIndex : Z)
  : outcome (sf.Image * Z) :=
  match bits with
  | [] => mret (carrierImage, bitIndex)
  | bit :: bits =>
      '(carrierImage, bitIndex) ← Steganography.embed_at carrierImage bitIndex bit;
      embed_stream bits carrierImage bitIndex
  end.

(** The stream [encode] embeds: 32 bits of the stored size, then the bytes. *)
Definition wire_bits (secretData : list Z) : list bool :=
  bits_from 32 0 (wrap32 (Z.of_nat (length secretData))) ++ data_bits secretData.

Definition is_byte (z : Z) : Prop := 0 <= z < 256.

(** ** Concrete inputs *)

Definition grey : sf.Color := sf.mkColor 200 100 50 255.

Definition carrier_10x10 : sf.Image := sf.mkImage 10 10 (replicate 100 grey).
Definition carrier_4x4 : sf.Image := sf.mkImage 4 4 (replicate 16 grey).
Definition carrier_1x1 : sf.Image := sf.mkImage 1 1 [grey].
Definition payload_AB : list Z := [65; 66].

(** A carrier of 2^31 pixels in one row (6442450944 slots) and a secret of
    2^29 - 3 zero bytes: header and payload take 2^32 + 8 bits. *)
Definition carrier_wide : sf.Image :=
  sf.mkImage (2 ^ 31) 1 (replicate (Z.to_nat (2 ^ 31)) grey).
Definition payload_long : list Z := replicate (Z.to_nat (2 ^ 29 - 3)) 0.

(** ** Reading an image that was not produced by [encode] *)

(** The number spelled, least-significant bit first, by the hidden bits of
    [count] consecutive slots from slot [c] on. *)
Fixpoint value_at (img : sf.Image) (c : Z) (count : nat) : Z :=
  match count with
  | O => 0
  | S count => 2 * value_at img (c + 1) count + Z.b2z (lsb img c)
  end.

(** The [n] bytes spelled by the slots from [c] on, eight slots per byte. *)
Fixpoint bytes_at (img : sf.Image) (c : Z) (n : nat) : list Z :=
  match n with
  | O => []
  | S n => value_at img c 8 :: bytes_at img (c + 8) n
  end.

(** A secret file of exactly 2^32 bytes (4 GiB). *)
Definition payload_4GiB : list Z := replicate (Z.to_nat (2 ^ 32)) 0.

(** An image every channel of which is even, and one every channel of
    which is odd. *)
Definition carrier_black : sf.Image := sf.mkImage 4 4 (replicate 16 (sf.mkColor 0 0 0 255)).
Definition carrier_white : sf.Image :=
  sf.mkImage 4 4 (replicate 16 (sf.mkColor 255 255 255 255)).

(** An image whose header bits spell the length 1: only the red channel of
    the first pixel is odd. *)
Definition carrier_one : sf.Image :=
  sf.mkImage 4 4 (sf.mkColor 201 100 50 255 :: replicate 15 grey).

(** ** The file-system steps of [encode] and [decode] and the status line

    The two functions of the source as a whole: the outcome of each
    file-system step is a parameter, the result is the [std::string] the
    function returns.  A run that leaves the pixel array has no result. *)

(** [Steganography::encode(carrierPath, secretPath, outputPath)], lines
    31-103.  [carrierImage] is what [loadFromFile] delivered, [secretFile]
    the bytes of the secret file if it could be opened, [saveToFile] tells
    whether the encoded image could be written. *)
Definition encode_file (carrierImage : option sf.Image) (secretFile : option (list Z))
    (saveToFile : sf.Image -> bool) (outputPath : string) : outcome string :=
  match carrierImage with
  | None => mret "Error: Could not load carrier image."%string
  | Some carrierImage =>
      match secretFile with
      | None => mret "Error: Could not open secret file."%string
      | Some secretData =>
          match Steganography.encode carrierImage secretData with
          | Steganography.InsufficientCapacity _ =>
              mret "Error: Carrier image is too small to hold the secret data."%string
          | Steganography.EncodeOutOfRange x y => OutOfRange x y
          | Steganography.Encoded carrierImage =>
              if saveToFile carrierImage
              then mret ("Success! Data encoded and saved to " ++ outputPath)%string
              else mret "Error: Failed to save the output image. Ensure it's a .png file."%string
          end
      end
  end.

(** [Steganography::decode(stegoPath, outputPath)], lines 106-180.
    [outputFile] tells whether the output file could be created. *)
Definition decode_file (stegoImage : option sf.Image) (outputFile : bool)
    (outputPath : string) : outcome string :=
  match stegoImage with
  | None => mret "Error: Could not load the steganographic image."%string
  | Some stegoImage =>
      match Steganography.decode stegoImage with
      | Steganography.DecodeOutOfRange x y => OutOfRange x y
      | Steganography.InvalidLength =>
          mret "Error: Decoded size is invalid or larger than image capacity."%string
      | Steganography.EmptyPayload =>
          mret "Warning: Decoded size is 0. Nothing to extract."%string
      | Steganography.Decoded secretData =>
          if outputFile
          then mret ("Success! Decoded data saved to " ++ outputPath)%string
          else mret "Error: Could not create output file for decoded data."%string
      end
  end.

Definition NUL : Ascii.ascii := Ascii.zero.

(** [result.c_str()] read as a C string: the characters before the first
    NUL. *)
Fixpoint c_str (s : string) : list Ascii.ascii :=
  match s with
  | EmptyString => []
  | String ch s => if Ascii.eqb ch NUL then [] else ch :: c_str s
  end.

(** A string that holds no NUL, as every [std::string] built from a
    character array does. *)
Definition nul_free (s : string) : Prop := c_str s = list_ascii_of_string s.

(** [strncpy(dest, src, count)] of the C library, for [count] at most the
    size of [dest]: the first [count] characters of [dest] become the
    characters of the C string [src], padded with NUL when [src] is shorter
    than [count]; when [src] has [count] characters or more no NUL is
    written. *)
Definition strncpy (dest src : list Ascii.ascii) (count : nat) : list Ascii.ascii :=
  take count (src ++ replicate count NUL) ++ drop count dest.

(** What a ["%s"] prints from a character array: the characters before the
    first NUL; [None] when the array holds no NUL and the read runs past its
    end. *)
Fixpoint printed (chars : list Ascii.ascii) : option (list Ascii.ascii) :=
  match chars with
  | [] => None
  | ch :: chars => if Ascii.eqb ch NUL then Some [] else cons ch <$> printed chars
  end.

(** [strncpy(status, result.c_str(), 256)] of the two button handlers of
    [main] (lines 233 and 251), [status] being the [char status[256]]. *)
Definition show_result (status : list Ascii.ascii) (result : string) : list Ascii.ascii :=
  strncpy status (c_str result) 256.

(** [char status[256] = "Ready."] *)
Definition status_ready : list Ascii.ascii :=
  list_ascii_of_string "Ready." ++ replicate 250 NUL.

(** An output path of 221 characters. *)
Definition path_221 : string :=
  string_of_list_ascii (replicate 221 (Ascii.ascii_of_nat 97)).

(** * Properties *)

Import Steganography.

(** Goals with division and remainder by known or positive divisors. *)
Ltac div_lia := Z.to_euclidean_division_equations; lia.
Ltac div_nia := Z.to_euclidean_division_equations; nia.

(** ** Bit packing *)

Section BitPacking.

Lemma to_bool_b2z (bit : bool) : to_bool (Z.b2z bit) = bit.
Proof. by destruct bit. Qed.

Lemma land_1_b2z (z : Z) : Z.land z 1 = Z.b2z (Z.testbit z 0).
Proof.
  change 1 with (Z.ones 1) at 1. rewrite Z.land_ones by lia.
  by rewrite Z.bit0_mod.
Qed.

Lemma extractBit_testbit (colorChannel : Z) :
  extractBit colorChannel = Z.testbit colorChannel 0.
Proof. unfold extractBit. by rewrite land_1_b2z, to_bool_b2z. Qed.

(** [(value >> i) & 1], read as a [bool], is bit [i] of [value]. *)
Lemma shift_mask_testbit (value i : Z) :
  0 <= i -> to_bool (Z.land (Z.shiftr value i) 1) = Z.testbit value i.
Proof.
  intros Hi. rewrite land_1_b2z, to_bool_b2z, Z.shiftr_spec by lia.
  by rewrite Z.add_0_l.
Qed.

Lemma testbit_1 (k : Z) : 0 <= k -> Z.testbit 1 k = (k =? 0).
Proof.
  intros Hk. change 1 with (2 ^ 0). rewrite Z.pow2_bits_eqb by lia.
  apply Z.eqb_sym.
Qed.

Lemma embedBit_testbit (colorChannel : Z) (bit : bool) (k : Z) :
  0 <= k ->
  Z.testbit (embedBit colorChannel bit) k =
  if k =? 0 then bit else Z.testbit colorChannel k.
Proof.
  intros Hk. unfold embedBit. destruct bit.
  - rewrite Z.lor_spec, testbit_1 by lia.
    destruct (k =? 0); [apply orb_true_r | apply orb_false_r].
  - rewrite Z.land_spec, Z.lnot_spec, testbit_1 by lia.
    destruct (k =? 0); [apply andb_false_r | apply andb_true_r].
Qed.

(** The seven high bits of a channel survive [embedBit]. *)
Lemma embedBit_high (colorChannel : Z) (bit : bool) :
  Z.shiftr (embedBit colorChannel bit) 1 = Z.shiftr colorChannel 1.
Proof.
  apply Z.bits_inj'. intros k Hk.
  rewrite !Z.shiftr_spec, embedBit_testbit by lia.
  destruct (Z.eqb_spec (k + 1) 0); [lia | done].
Qed.

Lemma embedBit_arith (colorChannel : Z) (bit : bool) :
  embedBit colorChannel bit = 2 * (colorChannel / 2) + Z.b2z bit.
Proof.
  apply Z.bits_inj'. intros k Hk. rewrite embedBit_testbit by lia.
  destruct (Z.eqb_spec k 0) as [->|Hne].
  - by rewrite Z.testbit_0_r.
  - replace k with (Z.succ (k - 1)) by lia.
    rewrite Z.testbit_succ_r by lia.
    change 2 with (2 ^ 1). rewrite <- Z.shiftr_div_pow2, Z.shiftr_spec by lia.
    f_equal; lia.
Qed.

Lemma embedBit_range (colorChannel : Z) (bit : bool) :
  0 <= colorChannel < 256 -> 0 <= embedBit colorChannel bit < 256.
Proof.
  intros Hc. rewrite embedBit_arith. destruct bit; simpl Z.b2z; div_lia.
Qed.

Lemma extractBit_embedBit (colorChannel : Z) (bit : bool) :
  extractBit (embedBit colorChannel bit) = bit.
Proof. by rewrite extractBit_testbit, embedBit_testbit. Qed.

Lemma land_254 (z : Z) : 0 <= z < 256 -> Z.land z 254 = Z.land z (Z.lnot 1).
Proof.
  intros Hz. change 254 with (Z.land (Z.ones 8) (Z.lnot 1)).
  rewrite Z.land_assoc, Z.land_ones by lia.
  by rewrite Z.mod_small by lia.
Qed.

End BitPacking.

(** C8.  For every 8-bit channel byte [b] and bit [v], [embedBit b v] is
    [(b & 0xFE) | v]: the seven high bits of [b] are kept and the result is
    again a byte; [extractBit b] is [b & 1]; the two functions are total
    (they are functions of Rocq) and [extractBit (embedBit b v) = v].  The
    two examples of the bit-isolation property evaluate as stated. *)
Theorem embedBit_extractBit_spec (b : Z) (v : bool) :
  0 <= b < 256 ->
  embedBit b v = Z.lor (Z.land b 254) (Z.b2z v) /\
  Z.shiftr (embedBit b v) 1 = Z.shiftr b 1 /\
  0 <= embedBit b v < 256 /\
  Z.b2z (extractBit b) = Z.land b 1 /\
  extractBit (embedBit b v) = v /\
  embedBit 254 true = 255 /\
  embedBit 255 false = 254.
Proof.
  intros Hb. repeat split.
  - rewrite land_254 by done. apply Z.bits_inj'. intros k Hk.
    rewrite embedBit_testbit, Z.lor_spec, Z.land_spec, Z.lnot_spec, testbit_1 by lia.
    destruct (Z.eqb_spec k 0) as [->|Hne].
    + rewrite andb_false_r. simpl. by destruct v.
    + rewrite andb_true_r. replace (Z.testbit (Z.b2z v) k) with false.
      * by rewrite orb_false_r.
      * destruct v; simpl Z.b2z; [|by rewrite Z.bits_0].
        rewrite testbit_1 by lia. symmetry. by apply Z.eqb_neq.
  - apply embedBit_high.
  - by apply embedBit_range.
  - by apply embedBit_range.
  - by rewrite extractBit_testbit, land_1_b2z.
  - apply extractBit_embedBit.
Qed.

Lemma embedBit_extractBit_spec_witness :
  0 <= 200 < 256 /\
  embedBit 200 true = Z.lor (Z.land 200 254) (Z.b2z true) /\
  extractBit (embedBit 200 true) = true.
Proof.
  split; [lia|].
  destruct (embedBit_extractBit_spec 200 true) as (H1 & _ & _ & _ & H5 & _); [lia|].
  exact (conj H1 H5).
Defined.

(** ** The pixel array seen as a sequence of slots *)

Section SlotView.

Lemma capacity_exact (img : sf.Image) :
  wf_image img -> capacity img = capacityBits img.
Proof.
  intros [Hw Hh _ Hm]. unfold capacity, capacityBits, wrap64.
  rewrite (Z.mod_small (sf.size_x img * sf.size_y img)) by nia.
  apply Z.mod_small. nia.
Qed.

Lemma mod3_cases (s : Z) : s mod 3 = 0 \/ s mod 3 = 1 \/ s mod 3 = 2.
Proof. div_lia. Qed.

(** Row-major coordinates: the pixel with index [p] lies in the image
    exactly when [p] is below the number of pixels. *)
Lemma contains_row_major (img : sf.Image) (p : Z) :
  wf_image img -> 0 <= p ->
  sf.contains img (p mod sf.size_x img) (p / sf.size_x img)
  = (p <? sf.size_x img * sf.size_y img).
Proof.
  intros [Hw Hh _ _] Hp. unfold sf.contains.
  pose proof (Z.mod_pos_bound p (sf.size_x img) ltac:(lia)) as Hx.
  pose proof (Z.div_pos p (sf.size_x img) Hp ltac:(lia)) as Hy.
  rewrite (proj2 (Z.leb_le _ _)), (proj2 (Z.ltb_lt _ _)), (proj2 (Z.leb_le _ _))
    by lia.
  simpl. destruct (Z.ltb_spec p (sf.size_x img * sf.size_y img)) as [Hlt|Hge].
  - apply Z.ltb_lt. apply Z.div_lt_upper_bound; lia.
  - apply Z.ltb_ge. apply Z.div_le_lower_bound; lia.
Qed.

Lemma row_major_index (img : sf.Image) (p : Z) :
  wf_image img ->
  p mod sf.size_x img + p / sf.size_x img * sf.size_x img = p.
Proof.
  intros [Hw _ _ _].
  pose proof (Z.div_mod p (sf.size_x img) ltac:(lia)). lia.
Qed.

Lemma slot_in_range (img : sf.Image) (s : Z) :
  0 <= s -> (s / 3 <? sf.size_x img * sf.size_y img) = (s <? capacityBits img).
Proof.
  intros Hs. unfold capacityBits.
  destruct (Z.ltb_spec s (sf.size_x img * sf.size_y img * 3)).
  - apply Z.ltb_lt. apply Z.div_lt_upper_bound; lia.
  - apply Z.ltb_ge. apply Z.div_le_lower_bound; lia.
Qed.

Lemma lookup_pixel (img : sf.Image) (s : Z) :
  wf_image img -> 0 <= s < capacityBits img ->
  is_Some (sf.pixels img !! Z.to_nat (s / 3)).
Proof.
  intros Hwf Hs. apply lookup_lt_is_Some.
  pose proof (wf_pixels _ Hwf) as Hlen.
  pose proof (slot_in_range img s ltac:(lia)) as Hr.
  rewrite (proj2 (Z.ltb_lt s _)) in Hr by lia. apply Z.ltb_lt in Hr.
  assert (0 <= s / 3) by (apply Z.div_pos; lia). lia.
Qed.

(** [getPixel] at the coordinates the codec computes for slot [s]. *)
Lemma getPixel_slot (img : sf.Image) (s : Z) :
  wf_image img -> 0 <= s ->
  sf.getPixel img ((s / 3) mod sf.size_x img) ((s / 3) / sf.size_x img) =
  if s <? capacityBits img then
    match sf.pixels img !! Z.to_nat (s / 3) with
    | Some color => Done color
    | None => OutOfRange ((s / 3) mod sf.size_x img) ((s / 3) / sf.size_x img)
    end
  else OutOfRange ((s / 3) mod sf.size_x img) ((s / 3) / sf.size_x img).
Proof.
  intros Hwf Hs. unfold sf.getPixel.
  assert (0 <= s / 3) by (apply Z.div_pos; lia).
  rewrite contains_row_major, slot_in_range, row_major_index by done.
  done.
Qed.

Lemma setPixel_slot (img : sf.Image) (s : Z) (color : sf.Color) :
  wf_image img -> 0 <= s < capacityBits img ->
  sf.setPixel img ((s / 3) mod sf.size_x img) ((s / 3) / sf.size_x img) color =
  Done (sf.mkImage (sf.size_x img) (sf.size_y img)
          (<[Z.to_nat (s / 3) := color]> (sf.pixels img))).
Proof.
  intros Hwf Hs. unfold sf.setPixel.
  assert (0 <= s / 3) by (apply Z.div_pos; lia).
  rewrite contains_row_major, slot_in_range, row_major_index by (done || lia).
  by rewrite (proj2 (Z.ltb_lt _ _)) by lia.
Qed.

(** One embedding step, told in slots. *)
Lemma embed_at_slot (img : sf.Image) (s : Z) (bit : bool) :
  wf_image img -> 0 <= s ->
  embed_at img s bit =
  if s <? capacityBits img then
    Done (set_slot img s (embedBit (slot img s) bit), wrap32 (s + 1))
  else OutOfRange ((s / 3) mod sf.size_x img) ((s / 3) / sf.size_x img).
Proof.
  intros Hwf Hs. unfold embed_at. rewrite getPixel_slot by done.
  destruct (Z.ltb_spec s (capacityBits img)) as [Hlt|Hge]; [|done].
  destruct (lookup_pixel img s Hwf ltac:(lia)) as [color Hcolor].
  unfold set_slot, slot. rewrite Hcolor. cbn [mbind outcome_bind].
  rewrite setPixel_slot by (done || lia). cbn [mbind outcome_bind mret outcome_ret].
  do 3 f_equal.
  destruct (mod3_cases s) as [-> | [-> | ->]]; reflexivity.
Qed.

(** One extraction step, told in slots. *)
Lemma extract_at_slot (img : sf.Image) (s : Z) :
  wf_image img -> 0 <= s ->
  extract_at img s =
  if s <? capacityBits img then Done (lsb img s, wrap32 (s + 1))
  else OutOfRange ((s / 3) mod sf.size_x img) ((s / 3) / sf.size_x img).
Proof.
  intros Hwf Hs. unfold extract_at. rewrite getPixel_slot by done.
  destruct (Z.ltb_spec s (capacityBits img)) as [Hlt|Hge]; [|done].
  destruct (lookup_pixel img s Hwf ltac:(lia)) as [color Hcolor].
  unfold lsb, slot. rewrite Hcolor. cbn [mbind outcome_bind mret outcome_ret].
  do 2 f_equal.
  destruct (mod3_cases s) as [-> | [-> | ->]]; apply extractBit_testbit.
Qed.

Lemma set_slot_size (img : sf.Image) (s v : Z) :
  sf.size_x (set_slot img s v) = sf.size_x img /\
  sf.size_y (set_slot img s v) = sf.size_y img /\
  length (sf.pixels (set_slot img s v)) = length (sf.pixels img).
Proof.
  unfold set_slot. destruct (sf.pixels img !! Z.to_nat (s / 3)); [|done].
  simpl. by rewrite length_insert.
Qed.

Lemma set_slot_capacityBits (img : sf.Image) (s v : Z) :
  capacityBits (set_slot img s v) = capacityBits img.
Proof.
  unfold capacityBits. destruct (set_slot_size img s v) as (-> & -> & _). done.
Qed.

Lemma set_slot_wf (img : sf.Image) (s v : Z) :
  wf_image img -> wf_image (set_slot img s v).
Proof.
  intros [Hw Hh Hl Hm]. destruct (set_slot_size img s v) as (Hx & Hy & Hlen).
  split; rewrite ?Hx, ?Hy, ?Hlen; done.
Qed.

Lemma set_slot_alpha (img : sf.Image) (s v : Z) (p : nat) :
  alpha (set_slot img s v) p = alpha img p.
Proof.
  unfold alpha, set_slot.
  destruct (sf.pixels img !! Z.to_nat (s / 3)) as [color|] eqn:Hcolor; [|done].
  simpl. destruct (decide (Z.to_nat (s / 3) = p)) as [<-|Hne].
  - rewrite list_lookup_insert_eq by (by eapply lookup_lt_Some).
    rewrite Hcolor. simpl. f_equal.
    destruct (mod3_cases s) as [-> | [-> | ->]]; reflexivity.
  - by rewrite list_lookup_insert_ne.
Qed.

Lemma slot_set_slot_same (img : sf.Image) (s v : Z) :
  wf_image img -> 0 <= s < capacityBits img ->
  slot (set_slot img s v) s = v.
Proof.
  intros Hwf Hs. destruct (lookup_pixel img s Hwf Hs) as [color Hcolor].
  unfold slot, set_slot. rewrite Hcolor. simpl.
  rewrite list_lookup_insert_eq by (by eapply lookup_lt_Some).
  destruct (mod3_cases s) as [-> | [-> | ->]]; reflexivity.
Qed.

Lemma slot_set_slot_other (img : sf.Image) (s s' v : Z) :
  0 <= s -> 0 <= s' -> s <> s' ->
  slot (set_slot img s v) s' = slot img s'.
Proof.
  intros Hs Hs' Hne. unfold slot at 1. unfold set_slot.
  destruct (sf.pixels img !! Z.to_nat (s / 3)) as [color|] eqn:Hcolor; [|done].
  simpl. destruct (decide (Z.to_nat (s / 3) = Z.to_nat (s' / 3))) as [Heq|Hneq].
  - rewrite <- Heq, list_lookup_insert_eq by (by eapply lookup_lt_Some).
    unfold slot. rewrite <- Heq, Hcolor.
    assert (s / 3 = s' / 3) as Hdiv.
    { assert (0 <= s / 3) by (apply Z.div_pos; lia).
      assert (0 <= s' / 3) by (apply Z.div_pos; lia). lia. }
    assert (s mod 3 <> s' mod 3) as Hmod by div_lia.
    destruct (mod3_cases s) as [Hk | [Hk | Hk]];
      destruct (mod3_cases s') as [Hk' | [Hk' | Hk']];
      rewrite Hk, Hk' in *; try reflexivity; lia.
  - unfold slot. by rewrite list_lookup_insert_ne.
Qed.

Lemma lsb_set_slot_embedBit (img : sf.Image) (s : Z) (bit : bool) :
  wf_image img -> 0 <= s < capacityBits img ->
  lsb (set_slot img s (embedBit (slot img s) bit)) s = bit.
Proof.
  intros Hwf Hs. unfold lsb. rewrite slot_set_slot_same by done.
  by rewrite embedBit_testbit.
Qed.

End SlotView.

(** ** The loops of [encode] embed a bit stream *)

Section EmbedStream.

Lemma wrap32_range (z : Z) : 0 <= wrap32 z < 2 ^ 32.
Proof. unfold wrap32. apply Z.mod_pos_bound. lia. Qed.

Lemma wrap32_small (z : Z) : 0 <= z < 2 ^ 32 -> wrap32 z = z.
Proof. unfold wrap32. apply Z.mod_small. Qed.

Lemma wrap32_le (z : Z) : 0 <= z -> wrap32 z <= z.
Proof. intros Hz. unfold wrap32. apply Z.mod_le; lia. Qed.

Lemma wrap32_add_l (z k : Z) : wrap32 (wrap32 z + k) = wrap32 (z + k).
Proof. unfold wrap32. apply Zplus_mod_idemp_l. Qed.

Lemma bits_from_length (count : nat) (i value : Z) :
  length (bits_from count i value) = count.
Proof. revert i. induction count as [|count IH]; intros i; simpl; by rewrite ?IH. Qed.

Lemma bits_from_lookup (count : nat) (i value : Z) (j : nat) :
  (j < count)%nat ->
  bits_from count i value !! j = Some (Z.testbit value (i + Z.of_nat j)).
Proof.
  revert i j. induction count as [|count IH]; intros i j Hj; [lia|].
  destruct j as [|j]; simpl.
  - by rewrite Z.add_0_r.
  - rewrite IH by lia. do 2 f_equal. lia.
Qed.

Lemma data_bits_length (secretData : list Z) :
  Z.of_nat (length (data_bits secretData)) = 8 * Z.of_nat (length secretData).
Proof.
  induction secretData as [|byte secretData IH]; [done|].
  cbn [data_bits]. rewrite length_app, bits_from_length. cbn [length]. lia.
Qed.

Lemma data_bits_lookup (secretData : list Z) (j : nat) (byte : Z) (k : nat) :
  secretData !! j = Some byte -> (k < 8)%nat ->
  data_bits secretData !! (8 * j + k)%nat = Some (Z.testbit byte (Z.of_nat k)).
Proof.
  revert j. induction secretData as [|byte' secretData IH]; intros j Hj Hk; [done|].
  cbn [data_bits]. destruct j as [|j].
  - injection Hj as ->. rewrite lookup_app_l by (rewrite bits_from_length; lia).
    rewrite bits_from_lookup by lia. do 2 f_equal.
  - rewrite lookup_app_r by (rewrite bits_from_length; lia).
    rewrite bits_from_length.
    replace (8 * S j + k - 8)%nat with (8 * j + k)%nat by lia.
    by apply IH.
Qed.

Lemma wire_bits_length (secretData : list Z) :
  Z.of_nat (length (wire_bits secretData)) = 32 + 8 * Z.of_nat (length secretData).
Proof.
  unfold wire_bits. rewrite length_app, bits_from_length, Nat2Z.inj_add.
  rewrite data_bits_length. lia.
Qed.

Lemma embed_stream_app (bits1 bits2 : list bool) (img : sf.Image) (c : Z) :
  embed_stream (bits1 ++ bits2) img c =
  '(img1, c1) ← embed_stream bits1 img c; embed_stream bits2 img1 c1.
Proof.
  revert img c. induction bits1 as [|bit bits1 IH]; intros img c; [done|].
  cbn [embed_stream app]. destruct (embed_at img c bit) as [[img1 c1]|x y]; [|done].
  cbn [mbind outcome_bind]. apply IH.
Qed.

Lemma embed_value_stream (count : nat) (i value : Z) (img : sf.Image) (c : Z) :
  0 <= i ->
  embed_value count i value img c = embed_stream (bits_from count i value) img c.
Proof.
  revert i img c. induction count as [|count IH]; intros i img c Hi; [done|].
  cbn [embed_value bits_from embed_stream]. rewrite shift_mask_testbit by done.
  destruct (embed_at img c _) as [[img1 c1]|x y]; [|done].
  cbn [mbind outcome_bind]. apply IH. lia.
Qed.

Lemma embed_data_stream (secretData : list Z) (img : sf.Image) (c : Z) :
  embed_data secretData img c = embed_stream (data_bits secretData) img c.
Proof.
  revert img c. induction secretData as [|byte secretData IH]; intros img c; [done|].
  cbn [embed_data data_bits]. rewrite embed_stream_app, embed_value_stream by lia.
  destruct (embed_stream _ img c) as [[img1 c1]|x y]; [|done].
  cbn [mbind outcome_bind]. apply IH.
Qed.

(** [encode] is the capacity check followed by the embedding of
    [wire_bits] from cursor 0. *)
Lemma encode_stream (img : sf.Image) (secretData : list Z) :
  encode img secretData =
  if capacity img <? wrap64 (32 + wrap64 (wrap32 (Z.of_nat (length secretData)) * 8))
  then InsufficientCapacity img
  else match embed_stream (wire_bits secretData) img 0 with
       | Done (img', _) => Encoded img'
       | OutOfRange x y => EncodeOutOfRange x y
       end.
Proof.
  unfold encode, wire_bits. change (4 * 8) with 32.
  destruct (_ <? _); [done|].
  rewrite embed_stream_app, embed_value_stream by lia.
  destruct (embed_stream _ img 0) as [[img1 c1]|x y]; [|done].
  cbn [mbind outcome_bind]. by rewrite embed_data_stream.
Qed.

Lemma required_bits_exact (n : Z) :
  0 <= n < 2 ^ 32 -> wrap64 (32 + wrap64 (n * 8)) = 32 + 8 * n.
Proof.
  intros Hn. unfold wrap64. rewrite (Z.mod_small (n * 8)) by lia.
  rewrite Z.mod_small by lia. lia.
Qed.

(** What a successful embedding leaves alone: the dimensions, the alpha
    plane, the seven high bits of every slot, and every slot that lies at or
    beyond the number of bits embedded so far.  [k] counts the bits embedded
    before this stream; the cursor never exceeds it, wrapped or not. *)
Lemma embed_stream_frame (bits : list bool) (img img' : sf.Image) (c c' k : Z) :
  wf_image img -> 0 <= c <= k ->
  embed_stream bits img c = Done (img', c') ->
  wf_image img' /\
  sf.size_x img' = sf.size_x img /\
  sf.size_y img' = sf.size_y img /\
  length (sf.pixels img') = length (sf.pixels img) /\
  (forall p, alpha img' p = alpha img p) /\
  (forall s, 0 <= s -> Z.shiftr (slot img' s) 1 = Z.shiftr (slot img s) 1) /\
  (forall s, k + Z.of_nat (length bits) <= s -> slot img' s = slot img s).
Proof.
  revert img c k. induction bits as [|bit bits IH]; intros img c k Hwf Hc Hrun.
  - injection Hrun as <- <-. done.
  - cbn [embed_stream] in Hrun. rewrite embed_at_slot in Hrun by (done || lia).
    destruct (Z.ltb_spec c (capacityBits img)) as [Hlt|Hge]; [|done].
    cbn [mbind outcome_bind] in Hrun.
    pose proof (wrap32_range (c + 1)). pose proof (wrap32_le (c + 1) ltac:(lia)).
    destruct (IH (set_slot img c (embedBit (slot img c) bit)) (wrap32 (c + 1)) (k + 1))
      as (Hwf' & Hx & Hy & Hlen & Halpha & Hhigh & Hrest);
      [by apply set_slot_wf | lia | exact Hrun |].
    destruct (set_slot_size img c (embedBit (slot img c) bit)) as (Hx1 & Hy1 & Hlen1).
    split; [done|]. repeat split; try congruence.
    + intros p. by rewrite Halpha, set_slot_alpha.
    + intros s Hs. rewrite Hhigh by done.
      destruct (decide (c = s)) as [<-|Hne].
      * rewrite slot_set_slot_same by (done || lia). apply embedBit_high.
      * by rewrite slot_set_slot_other by (done || lia).
    + intros s Hs. cbn [length] in Hs. rewrite Hrest by lia.
      apply slot_set_slot_other; lia.
Qed.

(** As long as the cursor does not wrap and stays below the capacity, the
    stream ends up in the least-significant bits of consecutive slots and
    the slots before the starting cursor keep their bytes. *)
Lemma embed_stream_nowrap (bits : list bool) (img : sf.Image) (c : Z) :
  wf_image img -> 0 <= c < 2 ^ 32 ->
  c + Z.of_nat (length bits) <= capacityBits img ->
  c + Z.of_nat (length bits) <= 2 ^ 32 ->
  exists img',
    embed_stream bits img c = Done (img', wrap32 (c + Z.of_nat (length bits))) /\
    (forall (j : nat) bit, bits !! j = Some bit -> lsb img' (c + Z.of_nat j) = bit) /\
    (forall s, 0 <= s < c -> slot img' s = slot img s).
Proof.
  revert img c. induction bits as [|bit bits IH]; intros img c Hwf Hc Hcap Hwrap.
  - exists img. cbn [length embed_stream] in *.
    rewrite Z.add_0_r, wrap32_small by lia. done.
  - cbn [length] in Hcap, Hwrap. cbn [embed_stream].
    rewrite embed_at_slot by (done || lia).
    rewrite (proj2 (Z.ltb_lt c _)) by lia. cbn [mbind outcome_bind].
    set (img1 := set_slot img c (embedBit (slot img c) bit)).
    assert (wf_image img1) as Hwf1 by by apply set_slot_wf.
    assert (capacityBits img1 = capacityBits img) as Hcap1
      by apply set_slot_capacityBits.
    destruct bits as [|bit' bits].
    + exists img1. cbn [embed_stream length]. repeat split.
      * intros [|j] b Hj; [|done]. injection Hj as <-. rewrite Z.add_0_r.
        apply lsb_set_slot_embedBit; [done | lia].
      * intros s Hs. apply slot_set_slot_other; lia.
    + cbn [length] in Hcap, Hwrap. rewrite wrap32_small by lia.
      destruct (IH img1 (c + 1) Hwf1 ltac:(lia)) as (img' & Hrun & Hbits & Hbefore).
      { cbn [length]. lia. }
      { cbn [length]. lia. }
      exists img'. split; [|split].
      * rewrite Hrun. do 3 f_equal. cbn [length]. lia.
      * intros [|j] b Hj.
        -- injection Hj as <-. rewrite Z.add_0_r. unfold lsb.
           rewrite Hbefore by lia. apply lsb_set_slot_embedBit; [done | lia].
        -- rewrite <- (Hbits j b Hj). f_equal. lia.
      * intros s Hs. rewrite Hbefore by lia. apply slot_set_slot_other; lia.
Qed.

(** An image with at least 2^32 slots holds every value the 32-bit cursor
    can take: the embedding cannot leave the pixel array. *)
Lemma embed_stream_total (bits : list bool) (img : sf.Image) (c : Z) :
  wf_image img -> 0 <= c < 2 ^ 32 -> 2 ^ 32 <= capacityBits img ->
  exists img',
    embed_stream bits img c = Done (img', wrap32 (c + Z.of_nat (length bits))) /\
    wf_image img' /\ capacityBits img' = capacityBits img.
Proof.
  revert img c. induction bits as [|bit bits IH]; intros img c Hwf Hc Hcap.
  - exists img. cbn [length embed_stream]. rewrite Z.add_0_r, wrap32_small by lia. done.
  - cbn [embed_stream]. rewrite embed_at_slot by (done || lia).
    rewrite (proj2 (Z.ltb_lt c _)) by lia. cbn [mbind outcome_bind].
    set (img1 := set_slot img c (embedBit (slot img c) bit)).
    destruct (IH img1 (wrap32 (c + 1))) as (img' & Hrun & Hwf' & Hcap').
    { by apply set_slot_wf. }
    { apply wrap32_range. }
    { unfold img1. rewrite set_slot_capacityBits. done. }
    exists img'. split; [|split; [done|]].
    + rewrite Hrun, wrap32_add_l. do 3 f_equal. cbn [length]. lia.
    + rewrite Hcap'. apply set_slot_capacityBits.
Qed.

End EmbedStream.

(** ** The loops of [decode] read the bit stream back *)

Section ExtractStream.

Lemma testbit_set_bit (v i k : Z) :
  0 <= i -> 0 <= k ->
  Z.testbit (Z.lor v (Z.shiftl 1 i)) k = Z.testbit v k || (k =? i).
Proof.
  intros Hi Hk. rewrite Z.lor_spec, Z.shiftl_spec by lia. f_equal.
  destruct (Z.eqb_spec k i) as [->|Hne].
  - by rewrite Z.sub_diag.
  - destruct (Z.le_gt_cases i k).
    + rewrite testbit_1 by lia. apply Z.eqb_neq. lia.
    + apply Z.testbit_neg_r. lia.
Qed.

(** A value whose bits from [w] on are all clear is unchanged by the
    conversion to a [w]-bit unsigned type. *)
Lemma mod_pow2_narrow (w v : Z) :
  0 <= w -> (forall k, w <= k -> Z.testbit v k = false) -> v mod 2 ^ w = v.
Proof.
  intros Hw Hhigh. apply Z.bits_inj'. intros k Hk.
  destruct (Z.lt_ge_cases k w).
  - by apply Z.mod_pow2_bits_low.
  - rewrite Z.mod_pow2_bits_high by lia. symmetry. by apply Hhigh.
Qed.

Lemma narrow_range (w v : Z) :
  0 <= w -> (forall k, w <= k -> Z.testbit v k = false) -> 0 <= v < 2 ^ w.
Proof.
  intros Hw Hhigh. rewrite <- (mod_pow2_narrow w v) by done.
  apply Z.mod_pos_bound. lia.
Qed.

Lemma range_narrow (w v k : Z) :
  0 <= v < 2 ^ w -> w <= k -> Z.testbit v k = false.
Proof.
  intros Hv Hk. destruct (Z.le_gt_cases 0 w).
  - rewrite <- (Z.mod_small v (2 ^ w)) by done. apply Z.mod_pow2_bits_high. lia.
  - rewrite Z.pow_neg_r in Hv by lia. lia.
Qed.

(** The loop that assembles a value: without wrap-around of the cursor and
    within the capacity it ors the least-significant bits of [count]
    consecutive slots into bits [i], [i+1], ... of the accumulator. *)
Lemma extract_value_nowrap (w : Z) (count : nat) (i v : Z) (img : sf.Image) (c : Z) :
  wf_image img -> 0 <= c < 2 ^ 32 ->
  c + Z.of_nat count <= capacityBits img ->
  c + Z.of_nat count <= 2 ^ 32 ->
  0 <= i -> i + Z.of_nat count <= w ->
  (forall k, w <= k -> Z.testbit v k = false) ->
  exists v',
    extract_value (2 ^ w) count i v img c = Done (v', wrap32 (c + Z.of_nat count)) /\
    (forall k, w <= k -> Z.testbit v' k = false) /\
    (forall k, 0 <= k ->
       Z.testbit v' k =
       if (i <=? k) && (k <? i + Z.of_nat count)
       then lsb img (c + (k - i)) || Z.testbit v k
       else Z.testbit v k).
Proof.
  intros Hwf. revert i v c.
  induction count as [|count IH]; intros i v c Hc Hcap Hwrap Hi Hw Hhigh.
  - exists v. cbn [extract_value]. rewrite Z.add_0_r, wrap32_small by lia.
    split; [done|]. split; [done|]. intros k Hk.
    destruct (Z.leb_spec i k), (Z.ltb_spec k (i + Z.of_nat 0)); simpl; done || lia.
  - cbn [extract_value]. rewrite extract_at_slot by (done || lia).
    rewrite (proj2 (Z.ltb_lt c _)) by lia. cbn [mbind outcome_bind].
    set (v1 := if lsb img c then Z.lor v (Z.shiftl 1 i) mod 2 ^ w else v).
    assert (forall k, 0 <= k ->
              Z.testbit v1 k = Z.testbit v k || (lsb img c && (k =? i))) as Hv1.
    { intros k Hk. unfold v1. destruct (lsb img c); [|by rewrite orb_false_r].
      rewrite mod_pow2_narrow; [by apply testbit_set_bit | lia |].
      intros k' Hk'. rewrite testbit_set_bit, Hhigh by lia.
      apply Z.eqb_neq. lia. }
    assert (forall k, w <= k -> Z.testbit v1 k = false) as Hhigh1.
    { intros k Hk. rewrite Hv1, Hhigh by lia.
      rewrite (proj2 (Z.eqb_neq k i)) by lia. by rewrite andb_false_r. }
    pose proof (wrap32_range (c + 1)) as Hc1.
    pose proof (wrap32_le (c + 1) ltac:(lia)) as Hle1.
    destruct (IH (i + 1) v1 (wrap32 (c + 1))) as (v' & Hrun & Hhigh' & Hbits);
      [lia | lia | lia | lia | lia | done |].
    exists v'. split; [|split; [done|]].
    + rewrite Hrun, wrap32_add_l. do 3 f_equal. lia.
    + intros k Hk. rewrite Hbits, Hv1 by done.
      assert (count = 0%nat \/ wrap32 (c + 1) = c + 1) as Hnext.
      { destruct count; [by left|]. right. apply wrap32_small. lia. }
      destruct (Z.leb_spec (i + 1) k), (Z.ltb_spec k (i + 1 + Z.of_nat count)),
        (Z.leb_spec i k), (Z.ltb_spec k (i + Z.of_nat (S count))),
        (Z.eqb_spec k i); simpl; try lia;
        rewrite ?andb_false_r, ?andb_true_r, ?orb_false_r; try done.
      * destruct Hnext as [->| ->]; [simpl in *; lia|]. do 2 f_equal. lia.
      * replace (c + (k - i)) with c by lia. apply orb_comm.
Qed.

(** Reading [count] bits into a cleared accumulator, from bit 0 on. *)
Lemma extract_value_fresh (w : Z) (count : nat) (img : sf.Image) (c : Z) :
  wf_image img -> 0 <= c < 2 ^ 32 ->
  c + Z.of_nat count <= capacityBits img ->
  c + Z.of_nat count <= 2 ^ 32 ->
  Z.of_nat count <= w ->
  exists v',
    extract_value (2 ^ w) count 0 0 img c = Done (v', wrap32 (c + Z.of_nat count)) /\
    0 <= v' < 2 ^ w /\
    (forall k, 0 <= k < Z.of_nat count -> Z.testbit v' k = lsb img (c + k)) /\
    (forall k, Z.of_nat count <= k -> Z.testbit v' k = false).
Proof.
  intros Hwf Hc Hcap Hwrap Hw.
  destruct (extract_value_nowrap w count 0 0 img c) as (v' & Hrun & Hhigh & Hbits);
    try (done || lia).
  { intros k _. apply Z.bits_0. }
  exists v'. split; [done|]. split; [apply narrow_range; [lia | done]|]. split.
  - intros k Hk. rewrite Hbits by lia.
    rewrite (proj2 (Z.leb_le 0 k)), (proj2 (Z.ltb_lt k _)) by lia. simpl.
    rewrite Z.bits_0, orb_false_r. f_equal. lia.
  - intros k Hk. rewrite Hbits by lia.
    rewrite (proj2 (Z.ltb_ge k _)) by lia. rewrite andb_false_r. apply Z.bits_0.
Qed.

(** On an image with fewer slots than the loop wants to read, the read that
    follows the last slot asks [getPixel] for row [size_y], one row below
    the image. *)
Lemma extract_value_overrun (m : Z) (count : nat) (i v : Z) (img : sf.Image) (c : Z) :
  wf_image img -> 0 <= c <= capacityBits img -> capacityBits img < 2 ^ 32 ->
  capacityBits img < c + Z.of_nat count ->
  extract_value m count i v img c = OutOfRange 0 (sf.size_y img).
Proof.
  intros Hwf. revert i v c.
  induction count as [|count IH]; intros i v c Hc Hsmall Hover; [lia|].
  cbn [extract_value]. rewrite extract_at_slot by (done || lia).
  destruct (Z.ltb_spec c (capacityBits img)) as [Hlt|Hge].
  - cbn [mbind outcome_bind]. rewrite wrap32_small by lia. apply IH; lia.
  - cbn [mbind outcome_bind]. assert (c = capacityBits img) as -> by lia.
    unfold capacityBits. rewrite Z.div_mul by lia.
    pose proof (wf_width _ Hwf).
    rewrite (Z.mul_comm (sf.size_x img)), Z.mod_mul, Z.div_mul by lia. done.
Qed.

(** The payload loop returns the bytes whose bits lie in the slots, eight
    slots per byte, least-significant bit first. *)
Lemma extract_data_nowrap (secretData : list Z) (img : sf.Image) (c : Z) (acc : list Z) :
  wf_image img -> 0 <= c < 2 ^ 32 ->
  c + 8 * Z.of_nat (length secretData) <= capacityBits img ->
  c + 8 * Z.of_nat (length secretData) <= 2 ^ 32 ->
  Forall is_byte secretData ->
  (forall (j : nat) byte k, secretData !! j = Some byte -> 0 <= k < 8 ->
     lsb img (c + 8 * Z.of_nat j + k) = Z.testbit byte k) ->
  extract_data (length secretData) img c acc = Done (acc ++ secretData).
Proof.
  intros Hwf. revert c acc.
  induction secretData as [|byte secretData IH]; intros c acc Hc Hcap Hwrap Hbytes Hbits.
  - cbn [length extract_data]. by rewrite app_nil_r.
  - cbn [length] in Hcap, Hwrap. cbn [length extract_data].
    destruct (extract_value_fresh 8 8 img c) as (v' & Hrun & Hrange & Hlow & Hhigh);
      try (done || lia).
    rewrite Hrun. cbn [mbind outcome_bind].
    assert (v' = byte) as ->.
    { apply Z.bits_inj'. intros k Hk. destruct (Z.lt_ge_cases k 8).
      - rewrite Hlow by lia. rewrite <- (Hbits 0%nat byte k) by (done || lia).
        f_equal. lia.
      - rewrite Hhigh by lia. symmetry. apply (range_narrow 8); [|lia].
        apply Forall_cons in Hbytes as [Hb _]. exact Hb. }
    apply Forall_cons in Hbytes as [_ Hbytes].
    destruct secretData as [|byte' secretData].
    + done.
    + cbn [length] in Hcap, Hwrap. change (Z.of_nat 8) with 8.
      rewrite wrap32_small by lia.
      rewrite (IH (c + 8)); [by rewrite <- app_assoc | lia | | | done |].
      * cbn [length]. lia.
      * cbn [length]. lia.
      * intros j b k Hj Hk. rewrite <- (Hbits (S j) b k) by done. f_equal. lia.
Qed.

(** The header loop on an image with at least 32 slots. *)
Lemma extract_header (img : sf.Image) :
  wf_image img -> 32 <= capacityBits img ->
  exists n,
    extract_value (2 ^ 32) 32 0 0 img 0 = Done (n, 32) /\
    0 <= n < 2 ^ 32 /\
    (forall i, 0 <= i < 32 -> Z.testbit n i = lsb img i).
Proof.
  intros Hwf Hcap.
  destruct (extract_value_fresh 32 32 img 0) as (n & Hrun & Hrange & Hlow & _);
    try (done || lia).
  exists n. split; [exact Hrun|]. split; [done|].
  intros i Hi. by rewrite Hlow by lia.
Qed.

(** Whatever the header loop returns is the number spelled by the
    least-significant bits of slots 0..31. *)
Lemma header_bits (img : sf.Image) (n bitIndex : Z) :
  wf_image img ->
  extract_value (2 ^ 32) 32 0 0 img 0 = Done (n, bitIndex) ->
  32 <= capacityBits img /\ bitIndex = 32 /\ 0 <= n < 2 ^ 32 /\
  (forall i, 0 <= i < 32 -> Z.testbit n i = lsb img i).
Proof.
  intros Hwf Hrun.
  assert (32 <= capacityBits img) as Hcap.
  { destruct (Z.le_gt_cases 32 (capacityBits img)) as [|Hsmall]; [done|].
    rewrite (extract_value_overrun (2 ^ 32) 32 0 0 img 0) in Hrun; try (done || lia).
    destruct Hwf as [Hw Hh _ _]. unfold capacityBits. nia. }
  destruct (extract_header img Hwf Hcap) as (n' & Hrun' & Hrange & Hbits).
  rewrite Hrun in Hrun'. by injection Hrun' as <- ->.
Qed.

End ExtractStream.

(** ** Capacity check and memory safety of [encode] *)

Section Capacity.

Lemma capacity_check_exact (img : sf.Image) (secretData : list Z) :
  wf_image img -> Z.of_nat (length secretData) <= 2 ^ 32 - 1 ->
  (capacity img <? wrap64 (32 + wrap64 (wrap32 (Z.of_nat (length secretData)) * 8)))
  = (capacityBits img <? 32 + 8 * Z.of_nat (length secretData)).
Proof.
  intros Hwf Hn. rewrite capacity_exact, wrap32_small by (done || lia).
  by rewrite required_bits_exact by lia.
Qed.

(** A stream that fits the capacity is embedded without leaving the pixel
    array, whether or not the 32-bit cursor wraps on the way. *)
Lemma embed_stream_inside (bits : list bool) (img : sf.Image) :
  wf_image img -> Z.of_nat (length bits) <= capacityBits img ->
  exists img' c', embed_stream bits img 0 = Done (img', c').
Proof.
  intros Hwf Hfit. destruct (Z.le_gt_cases (Z.of_nat (length bits)) (2 ^ 32)).
  - destruct (embed_stream_nowrap bits img 0) as (img' & Hrun & _); try (done || lia).
    eauto.
  - destruct (embed_stream_total bits img 0) as (img' & Hrun & _); try (done || lia).
    eauto.
Qed.

(** With a secret of at most 2^32 - 1 bytes, [encode] never calls
    [getPixel] or [setPixel] outside the image. *)
Lemma encode_stays_inside (img : sf.Image) (secretData : list Z) (x y : Z) :
  wf_image img -> Z.of_nat (length secretData) <= 2 ^ 32 - 1 ->
  encode img secretData <> EncodeOutOfRange x y.
Proof.
  intros Hwf Hn. rewrite encode_stream, capacity_check_exact by done.
  destruct (Z.ltb_spec (capacityBits img) (32 + 8 * Z.of_nat (length secretData)));
    [done|].
  destruct (embed_stream_inside (wire_bits secretData) img) as (img' & c' & ->);
    [done | rewrite wire_bits_length; lia | done].
Qed.

End Capacity.

(** C2.  For every pixel buffer with W, H >= 1 and every payload of [n]
    bytes (n at most 2^32 - 1, the payloads of the data model), encoding
    succeeds exactly when [32 + 8 * n <= W * H * 3]; otherwise the result is
    [InsufficientCapacity], returned before either embedding loop has run,
    with the buffer as it was passed in. *)
Theorem encode_capacity_check (img : sf.Image) (secretData : list Z) :
  wf_image img ->
  Z.of_nat (length secretData) <= 2 ^ 32 - 1 ->
  ((exists img', encode img secretData = Encoded img') <->
   32 + 8 * Z.of_nat (length secretData) <= capacityBits img) /\
  (capacityBits img < 32 + 8 * Z.of_nat (length secretData) ->
   encode img secretData = InsufficientCapacity img).
Proof.
  intros Hwf Hn. rewrite encode_stream, capacity_check_exact by done.
  destruct (Z.ltb_spec (capacityBits img) (32 + 8 * Z.of_nat (length secretData)))
    as [Hlt|Hge].
  - split; [|done]. split; [by intros [img' ?] | lia].
  - split; [|lia]. split; [done|]. intros _.
    destruct (embed_stream_inside (wire_bits secretData) img) as (img' & c' & ->);
      [done | rewrite wire_bits_length; lia |].
    by exists img'.
Qed.

Lemma carrier_4x4_wf : wf_image carrier_4x4.
Proof. split; vm_compute; (done || (split; congruence)). Defined.

Lemma carrier_10x10_wf : wf_image carrier_10x10.
Proof. split; vm_compute; (done || (split; congruence)). Defined.

Lemma carrier_1x1_wf : wf_image carrier_1x1.
Proof. split; vm_compute; (done || (split; congruence)). Defined.

(** The capacity boundary: a 4x4 carrier has 48 slots; two bytes need
    exactly 48 bits and fit, three bytes need 56 and are refused. *)
Lemma encode_capacity_check_witness :
  (exists img', encode carrier_4x4 payload_AB = Encoded img') /\
  encode carrier_4x4 [1; 2; 3] = InsufficientCapacity carrier_4x4.
Proof.
  split.
  - apply (encode_capacity_check carrier_4x4 payload_AB carrier_4x4_wf);
      vm_compute; congruence.
  - apply (encode_capacity_check carrier_4x4 [1; 2; 3] carrier_4x4_wf);
      vm_compute; congruence.
Defined.

(** C5.  For every successful encode of a payload of [n] bytes the result
    has the dimensions and the number of pixels of the input, the same alpha
    plane, the same seven high bits in every slot, and the same byte in
    every slot with index at least [32 + 8 * n]: only least-significant bits
    of the first [32 + 8 * n] slots can differ. *)
Theorem encode_frame (img img' : sf.Image) (secretData : list Z) :
  wf_image img ->
  encode img secretData = Encoded img' ->
  sf.size_x img' = sf.size_x img /\
  sf.size_y img' = sf.size_y img /\
  length (sf.pixels img') = length (sf.pixels img) /\
  (forall p, alpha img' p = alpha img p) /\
  (forall s, 0 <= s -> Z.shiftr (slot img' s) 1 = Z.shiftr (slot img s) 1) /\
  (forall s, 32 + 8 * Z.of_nat (length secretData) <= s -> slot img' s = slot img s).
Proof.
  intros Hwf Henc. rewrite encode_stream in Henc.
  destruct (_ <? _); [done|].
  destruct (embed_stream _ img 0) as [[img1 c1]|x y] eqn:Hrun; [|done].
  injection Henc as ->.
  destruct (embed_stream_frame (wire_bits secretData) img img' 0 c1 0)
    as (_ & Hx & Hy & Hlen & Halpha & Hhigh & Hrest); [done | lia | exact Hrun |].
  repeat split; try done.
  intros s Hs. apply Hrest. rewrite wire_bits_length. lia.
Qed.

Lemma encode_frame_witness :
  exists img',
    encode carrier_10x10 payload_AB = Encoded img' /\
    sf.size_x img' = 10 /\ sf.size_y img' = 10 /\
    (forall s, 0 <= s -> Z.shiftr (slot img' s) 1 = Z.shiftr (slot carrier_10x10 s) 1) /\
    (forall s, 48 <= s -> slot img' s = slot carrier_10x10 s).
Proof.
  eexists. split; [vm_compute; reflexivity|].
  match goal with
  | |- sf.size_x ?i = _ /\ _ =>
      destruct (encode_frame carrier_10x10 i payload_AB carrier_10x10_wf)
        as (Hx & Hy & _ & _ & Hhigh & Hrest); [vm_compute; reflexivity|]
  end.
  split; [exact Hx|]. split; [exact Hy|]. split; [exact Hhigh | exact Hrest].
Defined.

(** ** The length header read by [decode] *)

(** C7.  The slot-bound invariant fails for [decode]: the 32 header reads
    come before any comparison with the capacity, so on every image with
    fewer than 32 slots the read that follows the last slot calls
    [getPixel (0, size_y)], one row below the image.  (For [encode] the
    invariant holds, see [encode_stays_inside].) *)
Theorem decode_header_overrun (img : sf.Image) :
  wf_image img ->
  capacityBits img < 32 ->
  decode img = DecodeOutOfRange 0 (sf.size_y img).
Proof.
  intros Hwf Hsmall. unfold decode.
  rewrite (extract_value_overrun (2 ^ 32) 32 0 0 img 0); try (done || lia).
  destruct Hwf as [Hw Hh _ _]. unfold capacityBits. nia.
Qed.

Lemma decode_header_overrun_witness :
  wf_image carrier_1x1 /\ capacityBits carrier_1x1 < 32 /\
  decode carrier_1x1 = DecodeOutOfRange 0 1.
Proof.
  split; [exact carrier_1x1_wf|]. split; [vm_compute; reflexivity|].
  apply (decode_header_overrun carrier_1x1 carrier_1x1_wf). vm_compute; reflexivity.
Defined.



(** X17.  Whenever the header loop of [decode] delivers a value [n], which
    it does on the images with at least 32 slots, [n] is the 32-bit number
    whose bit [i] is the least-significant bit of slot [i] (i < 32), and
    [decode] returns [InvalidLength] if and only if
    [32 + n * 8 > W * H * 3]; it then returns before the payload loop and
    hands no byte to the output. *)
Theorem decode_invalid_length (img : sf.Image) (n bitIndex : Z) :
  wf_image img ->
  extract_value (2 ^ 32) 32 0 0 img 0 = Done (n, bitIndex) ->
  0 <= n < 2 ^ 32 /\
  (forall i, 0 <= i < 32 -> Z.testbit n i = lsb img i) /\
  (decode img = InvalidLength <-> 32 + n * 8 > capacityBits img) /\
  (32 + n * 8 > capacityBits img -> extracted (decode img) = []).
Proof.
  intros Hwf Hrun.
  destruct (header_bits img n bitIndex Hwf Hrun) as (Hcap & -> & Hrange & Hbits).
  split; [done|]. split; [done|].
  unfold decode. rewrite Hrun, capacity_exact by done.
  replace (wrap64 (wrap64 (n * 8) + 32)) with (32 + n * 8).
  2:{ unfold wrap64. rewrite (Z.mod_small (n * 8)) by lia.
      rewrite Z.mod_small by lia. lia. }
  destruct (Z.gtb_spec (32 + n * 8) (capacityBits img)) as [Hgt|Hle].
  - split; [split; [lia | done] | done].
  - split; [|lia]. split; [|lia].
    destruct (n =? 0); [done|].
    by destruct (extract_data _ _ _ _).
Qed.

Lemma decode_invalid_length_witness :
  extract_value (2 ^ 32) 32 0 0 (sf.mkImage 4 3 (replicate 12 (sf.mkColor 1 0 0 255))) 0
  = Done (1227133513, 32)
  /\ decode (sf.mkImage 4 3 (replicate 12 (sf.mkColor 1 0 0 255))) = InvalidLength.
Proof.
  split; [vm_compute; reflexivity|].
  apply (decode_invalid_length (sf.mkImage 4 3 (replicate 12 (sf.mkColor 1 0 0 255)))
           1227133513 32).
  - split; vm_compute; (done || (split; congruence)).
  - vm_compute; reflexivity.
  - vm_compute; reflexivity.
Defined.

(** ** Wire layout and round trip while the cursor does not wrap *)

Section RoundTrip.

Lemma encoded_inv (img img' : sf.Image) (secretData : list Z) :
  encode img secretData = Encoded img' ->
  wrap64 (32 + wrap64 (wrap32 (Z.of_nat (length secretData)) * 8)) <= capacity img /\
  exists c', embed_stream (wire_bits secretData) img 0 = Done (img', c').
Proof.
  rewrite encode_stream.
  match goal with |- context [?a <? ?b] => destruct (Z.ltb_spec a b) end; [done|].
  destruct (embed_stream _ img 0) as [[img1 c1]|x y]; [|done].
  intros [= ->]. eauto.
Qed.

Lemma wire_bits_header (secretData : list Z) (i : Z) :
  Z.of_nat (length secretData) < 2 ^ 32 -> 0 <= i < 32 ->
  wire_bits secretData !! Z.to_nat i =
  Some (Z.testbit (Z.of_nat (length secretData)) i).
Proof.
  intros Hn Hi. unfold wire_bits.
  rewrite lookup_app_l by (rewrite bits_from_length; lia).
  rewrite bits_from_lookup, wrap32_small by lia. do 2 f_equal. lia.
Qed.

Lemma wire_bits_payload (secretData : list Z) (j : nat) (byte k : Z) :
  secretData !! j = Some byte -> 0 <= k < 8 ->
  wire_bits secretData !! Z.to_nat (32 + 8 * Z.of_nat j + k) =
  Some (Z.testbit byte k).
Proof.
  intros Hj Hk. unfold wire_bits.
  rewrite lookup_app_r by (rewrite bits_from_length; lia).
  rewrite bits_from_length.
  replace (Z.to_nat (32 + 8 * Z.of_nat j + k) - 32)%nat
    with (8 * j + Z.to_nat k)%nat by lia.
  rewrite (data_bits_lookup _ _ byte) by (done || lia). do 2 f_equal. lia.
Qed.

(** While header and payload take at most 2^32 bits, a successful [encode]
    leaves bit [i] of the length in slot [i] and bit [k] of byte [j] in slot
    [32 + 8 * j + k]. *)
Lemma encode_wire_layout (img img' : sf.Image) (secretData : list Z) :
  wf_image img ->
  32 + 8 * Z.of_nat (length secretData) <= 2 ^ 32 ->
  encode img secretData = Encoded img' ->
  wf_image img' /\ capacityBits img' = capacityBits img /\
  32 + 8 * Z.of_nat (length secretData) <= capacityBits img /\
  (forall i, 0 <= i < 32 -> lsb img' i = Z.testbit (Z.of_nat (length secretData)) i) /\
  (forall (j : nat) byte k, secretData !! j = Some byte -> 0 <= k < 8 ->
     lsb img' (32 + 8 * Z.of_nat j + k) = Z.testbit byte k).
Proof.
  intros Hwf Hn Henc. apply encoded_inv in Henc as (Hcheck & c' & Hrun).
  rewrite capacity_exact, wrap32_small, required_bits_exact in Hcheck by (done || lia).
  pose proof (wire_bits_length secretData) as Hlen.
  destruct (embed_stream_nowrap (wire_bits secretData) img 0) as (img1 & Hrun1 & Hbits & _);
    try (done || lia).
  rewrite Hrun in Hrun1. injection Hrun1 as <- _.
  destruct (embed_stream_frame (wire_bits secretData) img img' 0 c' 0)
    as (Hwf' & Hx & Hy & _); [done | lia | done |].
  split; [done|]. split; [unfold capacityBits; by rewrite Hx, Hy|]. split; [done|]. split.
  - intros i Hi. rewrite <- (Hbits (Z.to_nat i) _ (wire_bits_header secretData i ltac:(lia) Hi)).
    f_equal. lia.
  - intros j byte k Hj Hk.
    rewrite <- (Hbits _ _ (wire_bits_payload secretData j byte k Hj Hk)).
    f_equal. lia.
Qed.

(** [decode] on an image whose slots hold a length [n >= 0] and the bytes
    of [secretData], [n] being the number of these bytes. *)
Lemma decode_wire_layout (img : sf.Image) (secretData : list Z) :
  wf_image img ->
  Forall is_byte secretData ->
  32 + 8 * Z.of_nat (length secretData) <= capacityBits img ->
  32 + 8 * Z.of_nat (length secretData) <= 2 ^ 32 ->
  (forall i, 0 <= i < 32 -> lsb img i = Z.testbit (Z.of_nat (length secretData)) i) ->
  (forall (j : nat) byte k, secretData !! j = Some byte -> 0 <= k < 8 ->
     lsb img (32 + 8 * Z.of_nat j + k) = Z.testbit byte k) ->
  decode img = match secretData with [] => EmptyPayload | _ => Decoded secretData end.
Proof.
  intros Hwf Hbytes Hcap Hwrap Hheader Hpayload.
  destruct (extract_header img Hwf ltac:(lia)) as (n & Hrun & Hrange & Hbits).
  assert (n = Z.of_nat (length secretData)) as ->.
  { apply Z.bits_inj'. intros k Hk. destruct (Z.lt_ge_cases k 32).
    - by rewrite Hbits, Hheader by lia.
    - rewrite !(range_narrow 32) by lia. done. }
  unfold decode. rewrite Hrun, capacity_exact by done.
  replace (wrap64 (wrap64 (Z.of_nat (length secretData) * 8) + 32))
    with (32 + 8 * Z.of_nat (length secretData)).
  2:{ unfold wrap64. rewrite (Z.mod_small (_ * 8)) by lia.
      rewrite Z.mod_small by lia. lia. }
  destruct (Z.gtb_spec (32 + 8 * Z.of_nat (length secretData)) (capacityBits img));
    [lia|].
  destruct secretData as [|byte secretData]; [done|].
  rewrite (proj2 (Z.eqb_neq _ 0)) by (cbn [length]; lia).
  rewrite Nat2Z.id.
  rewrite (extract_data_nowrap (byte :: secretData) img 32 []); try (done || lia).
Qed.

(** Round trip while the cursor does not wrap: [decode] returns the bytes
    that were encoded; for the empty payload it reports [EmptyPayload]. *)
Lemma decode_encode_bounded (img : sf.Image) (secretData : list Z) :
  wf_image img ->
  Forall is_byte secretData ->
  32 + 8 * Z.of_nat (length secretData) <= capacityBits img ->
  32 + 8 * Z.of_nat (length secretData) <= 2 ^ 32 ->
  exists img',
    encode img secretData = Encoded img' /\
    decode img' = match secretData with [] => EmptyPayload | _ => Decoded secretData end.
Proof.
  intros Hwf Hbytes Hcap Hwrap.
  assert (exists img', encode img secretData = Encoded img') as [img' Henc].
  { rewrite encode_stream, capacity_check_exact by (done || lia).
    rewrite (proj2 (Z.ltb_ge _ _)) by lia.
    destruct (embed_stream_inside (wire_bits secretData) img) as (img' & c' & ->);
      [done | rewrite wire_bits_length; lia |].
    by exists img'. }
  exists img'. split; [done|].
  destruct (encode_wire_layout img img' secretData Hwf Hwrap Henc)
    as (Hwf' & Hcap' & _ & Hheader & Hpayload).
  apply decode_wire_layout; try done; rewrite Hcap'; lia.
Qed.

End RoundTrip.

(** ** The 32-bit cursor wraps on streams longer than 2^32 bits

    [bitIndex] is an [unsigned int] while the capacity check is made in 64
    bits.  When header and payload take more than 2^32 bits and the image is
    large enough to pass the check, the cursor returns to slot 0 and the end
    of the payload is written over the length header. *)

Section CursorWrap.

Lemma data_bits_app (front back : list Z) :
  data_bits (front ++ back) = data_bits front ++ data_bits back.
Proof.
  induction front as [|byte front IH]; [done|].
  cbn [app data_bits]. by rewrite IH, app_assoc.
Qed.

Lemma extract_data_length (count : nat) (img : sf.Image) (c : Z) (acc out : list Z) :
  extract_data count img c acc = Done out ->
  length out = (length acc + count)%nat.
Proof.
  revert c acc. induction count as [|count IH]; intros c acc Hrun.
  - injection Hrun as <-. lia.
  - cbn [extract_data] in Hrun.
    destruct (extract_value _ _ _ _ img c) as [[v c1]|x y]; [|done].
    cbn [mbind outcome_bind] in Hrun. apply IH in Hrun.
    rewrite length_app in Hrun. cbn [length] in Hrun. lia.
Qed.

(** The bytes [decode] returns are as many as the header says. *)
Lemma decoded_length (img : sf.Image) (secretData : list Z) :
  decode img = Decoded secretData ->
  exists n c, extract_value (2 ^ 32) 32 0 0 img 0 = Done (n, c) /\
              length secretData = Z.to_nat n.
Proof.
  unfold decode. destruct (extract_value _ _ _ _ img 0) as [[n c]|x y]; [|done].
  destruct (_ >? _); [done|]. destruct (n =? 0); [done|].
  destruct (extract_data _ img c []) as [out|x y] eqn:Hrun; [|done].
  intros [= ->]. exists n, c. split; [done|].
  apply extract_data_length in Hrun. cbn [length] in Hrun. lia.
Qed.

(** A payload of [front ++ [last]] whose first part ends exactly at bit
    2^32 of the stream: the eight bits of [last] land in slots 0..7. *)
Lemma encode_wraps (img : sf.Image) (front : list Z) (last : Z) :
  wf_image img ->
  2 ^ 32 + 8 <= capacityBits img ->
  32 + 8 * Z.of_nat (length front) = 2 ^ 32 ->
  exists img',
    encode img (front ++ [last]) = Encoded img' /\
    wf_image img' /\
    capacityBits img' = capacityBits img /\
    (forall k, 0 <= k < 8 -> lsb img' k = Z.testbit last k).
Proof.
  intros Hwf Hcap Hfront.
  assert (Z.of_nat (length (front ++ [last])) = Z.of_nat (length front) + 1) as Hlen.
  { rewrite length_app. cbn [length]. lia. }
  rewrite encode_stream, capacity_check_exact by (done || lia).
  rewrite (proj2 (Z.ltb_ge _ _)) by lia.
  unfold wire_bits. rewrite data_bits_app, app_assoc, embed_stream_app.
  cbn [data_bits]. rewrite app_nil_r.
  destruct (embed_stream_total
              (bits_from 32 0 (wrap32 (Z.of_nat (length (front ++ [last]))))
               ++ data_bits front) img 0)
    as (img1 & Hrun1 & Hwf1 & Hcap1); try (done || lia).
  rewrite Hrun1. cbn [mbind outcome_bind].
  replace (wrap32 _) with 0.
  2:{ rewrite length_app, bits_from_length, Nat2Z.inj_add, data_bits_length.
      replace (0 + (Z.of_nat 32 + 8 * Z.of_nat (length front))) with (2 ^ 32) by lia.
      unfold wrap32. by rewrite Z.mod_same by lia. }
  destruct (embed_stream_nowrap (bits_from 8 0 last) img1 0)
    as (img' & Hrun & Hbits & _);
    [done | lia | rewrite bits_from_length; lia | rewrite bits_from_length; lia |].
  rewrite Hrun. exists img'.
  destruct (embed_stream_frame (bits_from 8 0 last) img1 img' 0
              (wrap32 (0 + Z.of_nat (length (bits_from 8 0 last)))) 0)
    as (Hwf' & Hx & Hy & _); [done | lia | done |].
  split; [done|]. split; [done|]. split.
  - rewrite <- Hcap1. unfold capacityBits. by rewrite Hx, Hy.
  - intros k Hk.
    rewrite <- (Hbits (Z.to_nat k) (Z.testbit last k)).
    + f_equal. lia.
    + rewrite bits_from_lookup by lia. do 2 f_equal. lia.
Qed.

Lemma carrier_wide_wf : wf_image carrier_wide.
Proof.
  unfold carrier_wide. split; cbn [sf.size_x sf.size_y sf.pixels]; try lia.
  rewrite length_replicate, Z2Nat.id; lia.
Qed.

Lemma carrier_wide_capacity : capacityBits carrier_wide = 3 * 2 ^ 31.
Proof. unfold capacityBits, carrier_wide. cbn [sf.size_x sf.size_y]. lia. Qed.

Lemma payload_long_length : Z.of_nat (length payload_long) = 2 ^ 29 - 3.
Proof. unfold payload_long. rewrite length_replicate, Z2Nat.id; lia. Qed.

Lemma payload_long_split :
  payload_long = replicate (Z.to_nat (2 ^ 29 - 4)) 0 ++ [0].
Proof.
  unfold payload_long.
  replace (Z.to_nat (2 ^ 29 - 3)) with (S (Z.to_nat (2 ^ 29 - 4))) by lia.
  apply replicate_S_end.
Qed.

Lemma encode_wide_long :
  exists img',
    encode carrier_wide payload_long = Encoded img' /\
    wf_image img' /\
    capacityBits img' = capacityBits carrier_wide /\
    (forall k, 0 <= k < 8 -> lsb img' k = false).
Proof.
  rewrite payload_long_split.
  destruct (encode_wraps carrier_wide (replicate (Z.to_nat (2 ^ 29 - 4)) 0) 0)
    as (img' & Henc & Hwf' & Hcap' & Hbits).
  - exact carrier_wide_wf.
  - rewrite carrier_wide_capacity. lia.
  - rewrite length_replicate, Z2Nat.id; lia.
  - exists img'. split; [exact Henc|]. split; [exact Hwf'|]. split; [exact Hcap'|].
    intros k Hk. rewrite (Hbits k Hk). apply Z.bits_0.
Qed.

End CursorWrap.

(** C1.  The round trip is lost once header and payload exceed 2^32 bits.
    The carrier of 2^31 x 1 pixels and the payload of 2^29 - 3 zero bytes
    satisfy every premise of the round-trip property (W, H >= 1, n at most
    2^32 - 1, 32 + 8 * n <= W * H * 3); [encode] succeeds, and [decode] of
    its result does not return the payload: the last byte has been written
    over the low bits of the length header.  While 32 + 8 * n <= 2^32 the
    round trip holds, see [decode_encode_bounded]. *)
Theorem round_trip_lost_after_wrap :
  wf_image carrier_wide /\
  Forall is_byte payload_long /\
  Z.of_nat (length payload_long) <= 2 ^ 32 - 1 /\
  32 + 8 * Z.of_nat (length payload_long) <= capacityBits carrier_wide /\
  exists img',
    encode carrier_wide payload_long = Encoded img' /\
    decode img' <> Decoded payload_long.
Proof.
  split; [exact carrier_wide_wf|].
  split; [apply Forall_replicate; unfold is_byte; lia|].
  rewrite payload_long_length, carrier_wide_capacity.
  split; [lia|]. split; [lia|].
  destruct encode_wide_long as (img' & Henc & Hwf' & Hcap' & Hbits).
  exists img'. split; [exact Henc|]. intros Hdec.
  apply decoded_length in Hdec as (n & c & Hrun & Hlen).
  destruct (header_bits img' n c Hwf' Hrun) as (_ & _ & Hn & Hlsb).
  assert (n = 2 ^ 29 - 3) as -> by (pose proof payload_long_length; lia).
  specialize (Hlsb 0 ltac:(lia)). rewrite Hbits in Hlsb by lia.
  revert Hlsb. vm_compute. discriminate.
Qed.

(** C4.  The wire layout fails on the same input: slot 0 must hold bit 0
    of the length 2^29 - 3, which is 1, and holds 0 after [encode].  While
    32 + 8 * n <= 2^32 the layout is as specified, see [encode_wire_layout]. *)
Theorem wire_layout_lost_after_wrap :
  wf_image carrier_wide /\
  Z.of_nat (length payload_long) <= 2 ^ 32 - 1 /\
  exists img',
    encode carrier_wide payload_long = Encoded img' /\
    Z.testbit (Z.of_nat (length payload_long)) 0 = true /\
    lsb img' 0 = false.
Proof.
  split; [exact carrier_wide_wf|].
  rewrite payload_long_length. split; [lia|].
  destruct encode_wide_long as (img' & Henc & _ & _ & Hbits).
  exists img'. split; [exact Henc|]. split; [reflexivity|].
  apply Hbits. lia.
Qed.

(** C9.  Encoding the empty payload into any buffer with at least 32 slots
    succeeds and writes the all-zero header only: afterwards the
    least-significant bits of slots 0..31 are 0, every slot from 32 on holds
    its old byte, and high bits and alpha plane are unchanged.  Decoding the
    result yields [EmptyPayload], with no bytes, reported by a line that
    starts with "Warning:" and not with "Error:". *)
Theorem encode_decode_empty (img : sf.Image) :
  wf_image img ->
  32 <= capacityBits img ->
  exists img',
    encode img [] = Encoded img' /\
    (forall i, 0 <= i < 32 -> lsb img' i = false) /\
    (forall s, 32 <= s -> slot img' s = slot img s) /\
    (forall s, 0 <= s -> Z.shiftr (slot img' s) 1 = Z.shiftr (slot img s) 1) /\
    (forall p, alpha img' p = alpha img p) /\
    decode img' = EmptyPayload /\
    extracted (decode img') = [] /\
    decode_status (decode img') =
      Some "Warning: Decoded size is 0. Nothing to extract."%string /\
    String.prefix "Error:" "Warning: Decoded size is 0. Nothing to extract." = false.
Proof.
  intros Hwf Hcap.
  destruct (decode_encode_bounded img [] Hwf) as (img' & Henc & Hdec);
    [done | cbn [length]; lia | cbn [length]; lia |].
  exists img'. split; [done|].
  destruct (encode_wire_layout img img' [] Hwf) as (_ & _ & _ & Hheader & _);
    [cbn [length]; lia | done |].
  pose proof (encoded_inv _ _ _ Henc) as (_ & c' & Hrun).
  destruct (embed_stream_frame (wire_bits []) img img' 0 c' 0)
    as (_ & _ & _ & _ & Halpha & Hhigh & Hrest); [done | lia | done |].
  split. { intros i Hi. rewrite Hheader by done. apply Z.bits_0. }
  split. { intros s Hs. apply Hrest. rewrite wire_bits_length. cbn [length]. lia. }
  split; [done|]. split; [done|].
  rewrite Hdec. done.
Qed.

Lemma encode_decode_empty_witness :
  exists img',
    encode carrier_10x10 [] = Encoded img' /\
    decode img' = EmptyPayload /\
    (forall s, 32 <= s -> slot img' s = slot carrier_10x10 s).
Proof.
  destruct (encode_decode_empty carrier_10x10 carrier_10x10_wf)
    as (img' & Henc & _ & Hrest & _ & _ & Hdec & _).
  - vm_compute. congruence.
  - exists img'. split; [exact Henc|]. split; [exact Hdec | exact Hrest].
Defined.

(** ** Traversal order *)



(** ** The stored length is 32 bits wide *)

Section Truncation.

(** An embedding that needs more slots than a small image has leaves the
    pixel array right after the last slot. *)
Lemma embed_stream_overrun (bits : list bool) (img : sf.Image) (c : Z) :
  wf_image img -> 0 <= c <= capacityBits img -> capacityBits img < 2 ^ 32 ->
  capacityBits img < c + Z.of_nat (length bits) ->
  embed_stream bits img c = OutOfRange 0 (sf.size_y img).
Proof.
  revert img c. induction bits as [|bit bits IH]; intros img c Hwf Hc Hsmall Hover.
  - cbn [length] in Hover. lia.
  - cbn [length] in Hover. cbn [embed_stream].
    rewrite embed_at_slot by (done || lia).
    destruct (Z.ltb_spec c (capacityBits img)) as [Hlt|Hge].
    + cbn [mbind outcome_bind]. rewrite wrap32_small by lia.
      destruct (set_slot_size img c (embedBit (slot img c) bit)) as (_ & Hy & _).
      rewrite <- Hy. apply IH.
      * by apply set_slot_wf.
      * rewrite set_slot_capacityBits. lia.
      * by rewrite set_slot_capacityBits.
      * rewrite set_slot_capacityBits. lia.
    + cbn [mbind outcome_bind]. assert (c = capacityBits img) as -> by lia.
      unfold capacityBits. rewrite Z.div_mul by lia.
      pose proof (wf_width _ Hwf).
      rewrite (Z.mul_comm (sf.size_x img)), Z.mod_mul, Z.div_mul by lia. done.
Qed.

(** A secret of exactly 2^32 bytes is stored with length 0: every image
    with at least 32 slots passes the check, and an image with fewer than
    2^32 slots is then overrun by the payload loop. *)
Lemma encode_truncated_overrun (img : sf.Image) (secretData : list Z) :
  wf_image img -> 32 <= capacityBits img < 2 ^ 32 ->
  Z.of_nat (length secretData) = 2 ^ 32 ->
  encode img secretData = EncodeOutOfRange 0 (sf.size_y img).
Proof.
  intros Hwf Hcap Hlen. rewrite encode_stream, Hlen.
  replace (wrap32 (2 ^ 32)) with 0 by (unfold wrap32; by rewrite Z.mod_same by lia).
  rewrite capacity_exact by done. change (wrap64 (32 + wrap64 (0 * 8))) with 32.
  rewrite (proj2 (Z.ltb_ge _ _)) by lia.
  rewrite embed_stream_overrun; [done | done | lia | lia |].
  rewrite wire_bits_length. lia.
Qed.

(** A slot that no cursor value of a run equals keeps its byte. *)
Lemma embed_stream_untouched (bits : list bool) (img img' : sf.Image) (c c' s : Z) :
  wf_image img -> 0 <= c < 2 ^ 32 -> 0 <= s ->
  embed_stream bits img c = Done (img', c') ->
  (forall i : nat, (i < length bits)%nat -> wrap32 (c + Z.of_nat i) <> s) ->
  slot img' s = slot img s.
Proof.
  revert img c. induction bits as [|bit bits IH]; intros img c Hwf Hc Hs Hrun Hfree.
  - by injection Hrun as <- _.
  - cbn [embed_stream] in Hrun. rewrite embed_at_slot in Hrun by (done || lia).
    destruct (Z.ltb_spec c (capacityBits img)) as [Hlt|Hge]; [|done].
    cbn [mbind outcome_bind] in Hrun.
    rewrite (IH (set_slot img c (embedBit (slot img c) bit)) (wrap32 (c + 1)));
      [ | by apply set_slot_wf | apply wrap32_range | done | exact Hrun | ].
    + apply slot_set_slot_other; [lia | done |].
      specialize (Hfree 0%nat ltac:(cbn [length]; lia)).
      rewrite Z.add_0_r, wrap32_small in Hfree by lia. done.
    + intros i Hi. rewrite wrap32_add_l.
      specialize (Hfree (S i) ltac:(cbn [length]; lia)).
      by replace (c + 1 + Z.of_nat i) with (c + Z.of_nat (S i)) by lia.
Qed.

(** Wrapped or not, the last write to a slot wins: a bit of the stream that
    is followed by fewer than 2^32 further bits is in the image at the end,
    in the slot the cursor had when it was embedded. *)
Lemma embed_stream_last_writes (bits : list bool) (img img' : sf.Image) (c c' : Z) :
  wf_image img -> 0 <= c < 2 ^ 32 ->
  embed_stream bits img c = Done (img', c') ->
  forall (j : nat) bit, bits !! j = Some bit ->
    Z.of_nat (length bits) <= Z.of_nat j + 2 ^ 32 ->
    lsb img' (wrap32 (c + Z.of_nat j)) = bit.
Proof.
  revert img c. induction bits as [|b bits IH]; intros img c Hwf Hc Hrun j bit Hj Hlast;
    [done|].
  cbn [embed_stream] in Hrun. rewrite embed_at_slot in Hrun by (done || lia).
  destruct (Z.ltb_spec c (capacityBits img)) as [Hlt|Hge]; [|done].
  cbn [mbind outcome_bind] in Hrun. cbn [length] in Hlast.
  set (img1 := set_slot img c (embedBit (slot img c) b)) in *.
  assert (wf_image img1) as Hwf1 by by apply set_slot_wf.
  destruct j as [|j].
  - injection Hj as <-. rewrite Z.add_0_r, wrap32_small by lia. unfold lsb.
    rewrite (embed_stream_untouched bits img1 img' (wrap32 (c + 1)) c' c);
      [ | done | apply wrap32_range | lia | exact Hrun | ].
    + apply lsb_set_slot_embedBit; [done | lia].
    + intros i Hi. rewrite wrap32_add_l. unfold wrap32.
      change (2 ^ 32) with 4294967296 in *. intros Heq. div_lia.
  - rewrite <- (IH img1 (wrap32 (c + 1)) Hwf1 (wrap32_range _) Hrun j bit Hj)
      by lia.
    rewrite wrap32_add_l. do 2 f_equal. lia.
Qed.

End Truncation.

(** C10.  For every payload of length [L] the encoder keeps the length in
    a 32-bit variable.  The capacity check is made with
    [32 + 8 * (L mod 2^32)]: [encode] returns [InsufficientCapacity] exactly
    when the capacity is below that.  When the check passes, the header loop
    leaves bit [i] of [L mod 2^32] in slot [i] (i < 32) and every other slot
    alone, and [encode] continues from that image, at cursor 32, with the
    payload loop over all [L] bytes.  That loop embeds every byte: after a
    successful [encode], bit [k] of byte [j] is the least-significant bit of
    slot [(32 + 8 * j + k) mod 2^32], for every byte that lies within the
    last 2^32 bits embedded (the earlier ones have been written over by the
    wrapped cursor).  For [L <= 2^32 - 1] the stored length is [L]. *)
Theorem encode_length_truncation (img : sf.Image) (secretData : list Z) :
  wf_image img ->
  let L := Z.of_nat (length secretData) in
  (encode img secretData = InsufficientCapacity img <->
   capacityBits img < 32 + 8 * (L mod 2 ^ 32)) /\
  (32 + 8 * (L mod 2 ^ 32) <= capacityBits img ->
   exists img1,
     embed_value 32 0 (L mod 2 ^ 32) img 0 = Done (img1, 32) /\
     (forall i, 0 <= i < 32 -> lsb img1 i = Z.testbit (L mod 2 ^ 32) i) /\
     (forall s, 32 <= s -> slot img1 s = slot img s) /\
     encode img secretData =
       match embed_data secretData img1 32 with
       | Done (img', _) => Encoded img'
       | OutOfRange x y => EncodeOutOfRange x y
       end) /\
  (forall img', encode img secretData = Encoded img' ->
     forall (j : nat) byte k, secretData !! j = Some byte -> 0 <= k < 8 ->
       8 * L <= 8 * Z.of_nat j + k + 2 ^ 32 ->
       lsb img' (wrap32 (32 + 8 * Z.of_nat j + k)) = Z.testbit byte k) /\
  (L <= 2 ^ 32 - 1 -> L mod 2 ^ 32 = L).
Proof.
  intros Hwf L. pose proof (wrap32_range L) as Hrange. unfold wrap32 in Hrange.
  split; [|split; [|split]].
  - rewrite encode_stream, capacity_exact by done. fold L. unfold wrap32.
    rewrite required_bits_exact by done.
    destruct (Z.ltb_spec (capacityBits img) (32 + 8 * (L mod 2 ^ 32))) as [Hlt|Hge].
    + done.
    + split; [|lia]. by destruct (embed_stream _ img 0) as [[img1 c1]|x y].
  - intros Hfit.
    destruct (embed_stream_nowrap (bits_from 32 0 (L mod 2 ^ 32)) img 0)
      as (img1 & Hrun & Hbits & _);
      [done | lia | rewrite bits_from_length; lia | rewrite bits_from_length; lia |].
    rewrite bits_from_length in Hrun. change (wrap32 (0 + Z.of_nat 32)) with 32 in Hrun.
    exists img1. rewrite embed_value_stream by lia. split; [exact Hrun|].
    destruct (embed_stream_frame (bits_from 32 0 (L mod 2 ^ 32)) img img1 0 32 0)
      as (_ & _ & _ & _ & _ & _ & Hrest); [done | lia | exact Hrun |].
    split; [|split].
    + intros i Hi. rewrite <- (Hbits (Z.to_nat i) (Z.testbit (L mod 2 ^ 32) i)).
      * f_equal. lia.
      * rewrite bits_from_lookup by lia. do 2 f_equal. lia.
    + intros s Hs. apply Hrest. rewrite bits_from_length. lia.
    + unfold encode. fold L. rewrite capacity_exact by done. unfold wrap32.
      change (4 * 8) with 32. rewrite required_bits_exact by done.
      rewrite (proj2 (Z.ltb_ge _ _)) by lia.
      rewrite embed_value_stream, Hrun by lia. done.
  - intros img' Henc j byte k Hj Hk Hlast.
    apply encoded_inv in Henc as (_ & c' & Hrun).
    pose proof (wire_bits_length secretData) as Hlen. fold L in Hlen.
    rewrite <- (embed_stream_last_writes (wire_bits secretData) img img' 0 c' Hwf
                  ltac:(lia) Hrun (Z.to_nat (32 + 8 * Z.of_nat j + k))
                  (Z.testbit byte k)).
    + do 2 f_equal. lia.
    + by apply wire_bits_payload.
    + lia.
  - intros HL. apply Z.mod_small. lia.
Qed.

(** A secret of 2^32 bytes is stored with length 0 and passes the check of
    a 300-slot carrier, although it needs 2^35 + 32 bits. *)
Lemma encode_length_truncation_witness :
  Z.of_nat (length payload_4GiB) mod 2 ^ 32 = 0 /\
  capacityBits carrier_10x10 < 32 + 8 * Z.of_nat (length payload_4GiB) /\
  encode carrier_10x10 payload_4GiB <> InsufficientCapacity carrier_10x10.
Proof.
  assert (Z.of_nat (length payload_4GiB) = 2 ^ 32) as Hlen.
  { unfold payload_4GiB. rewrite length_replicate, Z2Nat.id; lia. }
  destruct (encode_length_truncation carrier_10x10 payload_4GiB carrier_10x10_wf)
    as (Hcheck & _).
  rewrite Hlen in Hcheck. rewrite Hlen.
  split; [reflexivity|]. split; [vm_compute; reflexivity|].
  intros Henc. apply Hcheck in Henc. revert Henc. vm_compute. discriminate.
Defined.

(** ** The concrete scenario of the specification *)

(** A 10x10 carrier (300 slots) takes the two bytes "AB" (48 bits), and
    [decode] recovers exactly these two bytes. *)
Example scenario_AB :
  exists img', encode carrier_10x10 payload_AB = Encoded img' /\
               decode img' = Decoded [65; 66].
Proof. eexists. split; [vm_compute; reflexivity|]. vm_compute. reflexivity. Qed.

(** * Further properties of the codec *)

(** ** Laws of the two bit helpers *)

(** X1.  [embedBit] with the bit a channel already carries changes nothing,
    a second [embedBit] overrides the first, and [embedBit] moves a channel
    value by at most one. *)
Theorem embedBit_laws (colorChannel : Z) (first second : bool) :
  embedBit colorChannel (extractBit colorChannel) = colorChannel /\
  embedBit (embedBit colorChannel first) second = embedBit colorChannel second /\
  -1 <= embedBit colorChannel second - colorChannel <= 1.
Proof.
  split; [|split].
  - apply Z.bits_inj'. intros k Hk. rewrite embedBit_testbit by done.
    destruct (Z.eqb_spec k 0) as [->|]; [apply extractBit_testbit | done].
  - apply Z.bits_inj'. intros k Hk. rewrite !embedBit_testbit by done.
    by destruct (k =? 0).
  - rewrite embedBit_arith. destruct second; simpl Z.b2z; div_lia.
Qed.

(** ** Memory safety *)

Section Inside.

Lemma extract_value_inside (m : Z) (count : nat) (i v : Z) (img : sf.Image) (c : Z) :
  wf_image img -> 0 <= c < 2 ^ 32 ->
  2 ^ 32 <= capacityBits img \/ c + Z.of_nat count <= capacityBits img ->
  exists v', extract_value m count i v img c = Done (v', wrap32 (c + Z.of_nat count)).
Proof.
  intros Hwf. revert i v c. induction count as [|count IH]; intros i v c Hc Hfit.
  - exists v. cbn [extract_value]. by rewrite Z.add_0_r, wrap32_small by lia.
  - cbn [extract_value]. rewrite extract_at_slot by (done || lia).
    rewrite (proj2 (Z.ltb_lt c _)) by lia. cbn [mbind outcome_bind].
    pose proof (wrap32_range (c + 1)). pose proof (wrap32_le (c + 1) ltac:(lia)).
    match goal with
    | |- context [extract_value m count ?i' ?v' img _] =>
        destruct (IH i' v' (wrap32 (c + 1))) as (v'' & Hrun); [lia | lia |]
    end.
    exists v''. rewrite Hrun, wrap32_add_l. do 3 f_equal. lia.
Qed.

Lemma extract_data_inside (count : nat) (img : sf.Image) (c : Z) (acc : list Z) :
  wf_image img -> 0 <= c < 2 ^ 32 ->
  2 ^ 32 <= capacityBits img \/ c + 8 * Z.of_nat count <= capacityBits img ->
  exists out, extract_data count img c acc = Done out.
Proof.
  intros Hwf. revert c acc. induction count as [|count IH]; intros c acc Hc Hfit.
  - by exists acc.
  - cbn [extract_data].
    destruct (extract_value_inside (2 ^ 8) 8 0 0 img c) as (v & ->); [done | done | lia |].
    cbn [mbind outcome_bind].
    pose proof (wrap32_range (c + Z.of_nat 8)).
    pose proof (wrap32_le (c + Z.of_nat 8) ltac:(lia)).
    apply IH; lia.
Qed.

Lemma wrap64_required (n : Z) :
  0 <= n < 2 ^ 32 -> wrap64 (wrap64 (n * 8) + 32) = 32 + 8 * n.
Proof.
  intros Hn. unfold wrap64. rewrite (Z.mod_small (n * 8)) by lia.
  rewrite Z.mod_small by lia. lia.
Qed.

End Inside.

(** X2.  With a secret of at most 2^32 - 1 bytes [encode] never calls
    [getPixel] or [setPixel] with coordinates outside the image, whether the
    capacity check passes or not and whether or not the cursor wraps. *)
Theorem encode_never_leaves_image (img : sf.Image) (secretData : list Z) (x y : Z) :
  wf_image img ->
  Z.of_nat (length secretData) <= 2 ^ 32 - 1 ->
  encode img secretData <> EncodeOutOfRange x y.
Proof. intros Hwf Hn. by apply encode_stays_inside. Qed.

Lemma encode_never_leaves_image_witness :
  encode carrier_4x4 [1; 2; 3] <> EncodeOutOfRange 0 4 /\
  encode carrier_4x4 payload_AB <> EncodeOutOfRange 0 4.
Proof.
  split.
  - apply (encode_never_leaves_image carrier_4x4 [1; 2; 3] 0 4 carrier_4x4_wf).
    vm_compute. congruence.
  - apply (encode_never_leaves_image carrier_4x4 payload_AB 0 4 carrier_4x4_wf).
    vm_compute. congruence.
Defined.

(** X3.  [decode] stays inside the image exactly when the image has at
    least 32 slots (11 pixels): then neither the header loop nor the payload
    loop, which only runs after the length was compared with the capacity,
    reads outside; with fewer slots the header loop does. *)
Theorem decode_inside_iff (img : sf.Image) :
  wf_image img ->
  (32 <= capacityBits img <-> forall x y, decode img <> DecodeOutOfRange x y).
Proof.
  intros Hwf. split.
  - intros Hcap x y. unfold decode.
    destruct (extract_header img Hwf Hcap) as (n & -> & Hn & _).
    rewrite capacity_exact, wrap64_required by done.
    destruct (Z.gtb_spec (32 + 8 * n) (capacityBits img)); [done|].
    destruct (n =? 0); [done|].
    destruct (extract_data_inside (Z.to_nat n) img 32 [] Hwf) as (out & ->);
      [lia | lia | done].
  - intros Hsafe. destruct (Z.le_gt_cases 32 (capacityBits img)) as [|Hsmall]; [done|].
    exfalso. apply (Hsafe 0 (sf.size_y img)). unfold decode.
    rewrite (extract_value_overrun (2 ^ 32) 32 0 0 img 0); try (done || lia).
    destruct Hwf as [Hw Hh _ _]. unfold capacityBits. nia.
Qed.

Lemma decode_inside_iff_witness :
  (forall x y, decode carrier_4x4 <> DecodeOutOfRange x y) /\
  ~ (forall x y, decode carrier_1x1 <> DecodeOutOfRange x y).
Proof.
  split.
  - apply (decode_inside_iff carrier_4x4 carrier_4x4_wf). vm_compute. congruence.
  - intros Hsafe. apply (decode_inside_iff carrier_1x1 carrier_1x1_wf) in Hsafe.
    revert Hsafe. vm_compute. intros H. by apply H.
Defined.

(** X4.  When the secret has 2^32 bytes or more, the capacity check is made
    with the length modulo 2^32 while the payload loop runs over every byte.
    If the truncated length fits an image of fewer than 2^32 slots and the
    real one does not, [encode] passes the check and runs off the end of the
    image: the access that follows the last slot goes to row [size_y]. *)
Theorem encode_overrun_by_truncation (img : sf.Image) (secretData : list Z) :
  wf_image img ->
  capacityBits img < 2 ^ 32 ->
  32 + 8 * (Z.of_nat (length secretData) mod 2 ^ 32) <= capacityBits img ->
  capacityBits img < 32 + 8 * Z.of_nat (length secretData) ->
  encode img secretData = EncodeOutOfRange 0 (sf.size_y img).
Proof.
  intros Hwf Hsmall Hfit Hover. rewrite encode_stream, capacity_exact by done.
  pose proof (wrap32_range (Z.of_nat (length secretData))) as Hrange.
  rewrite required_bits_exact by done. unfold wrap32 at 1.
  rewrite (proj2 (Z.ltb_ge _ _)) by lia.
  rewrite embed_stream_overrun; [done | done | | done |].
  - destruct Hwf as [Hw Hh _ _]. unfold capacityBits. nia.
  - rewrite wire_bits_length. lia.
Qed.

Lemma payload_4GiB_length : Z.of_nat (length payload_4GiB) = 2 ^ 32.
Proof. unfold payload_4GiB. rewrite length_replicate, Z2Nat.id; lia. Qed.

Lemma encode_overrun_by_truncation_witness :
  encode carrier_10x10 payload_4GiB = EncodeOutOfRange 0 10.
Proof.
  apply (encode_overrun_by_truncation carrier_10x10 payload_4GiB carrier_10x10_wf).
  - vm_compute. reflexivity.
  - rewrite payload_4GiB_length. vm_compute. congruence.
  - rewrite payload_4GiB_length. vm_compute. reflexivity.
Defined.

(** ** The codec while header and payload take at most 2^32 bits *)

(** X5.  Round trip: if the payload consists of bytes, fits the capacity
    and header and payload take at most 2^32 bits, [encode] succeeds and
    [decode] of its result returns exactly the payload; for the empty
    payload it returns [EmptyPayload]. *)
Theorem round_trip_below_wrap (img : sf.Image) (secretData : list Z) :
  wf_image img ->
  Forall is_byte secretData ->
  32 + 8 * Z.of_nat (length secretData) <= capacityBits img ->
  32 + 8 * Z.of_nat (length secretData) <= 2 ^ 32 ->
  exists img',
    encode img secretData = Encoded img' /\
    decode img' = match secretData with [] => EmptyPayload | _ => Decoded secretData end.
Proof. apply decode_encode_bounded. Qed.

Lemma round_trip_below_wrap_witness :
  exists img',
    encode carrier_10x10 payload_AB = Encoded img' /\ decode img' = Decoded payload_AB.
Proof.
  apply (round_trip_below_wrap carrier_10x10 payload_AB carrier_10x10_wf).
  - repeat constructor; unfold is_byte; lia.
  - vm_compute. congruence.
  - vm_compute. congruence.
Defined.

(** X6.  Wire layout: after a successful [encode] of at most 2^32 bits the
    least-significant bit of slot [i < 32] is bit [i] of the payload length
    and that of slot [32 + 8 * j + k] is bit [k] of byte [j]. *)
Theorem wire_layout_below_wrap (img img' : sf.Image) (secretData : list Z) :
  wf_image img ->
  32 + 8 * Z.of_nat (length secretData) <= 2 ^ 32 ->
  encode img secretData = Encoded img' ->
  (forall i, 0 <= i < 32 -> lsb img' i = Z.testbit (Z.of_nat (length secretData)) i) /\
  (forall (j : nat) byte k, secretData !! j = Some byte -> 0 <= k < 8 ->
     lsb img' (32 + 8 * Z.of_nat j + k) = Z.testbit byte k).
Proof.
  intros Hwf Hn Henc.
  destruct (encode_wire_layout img img' secretData Hwf Hn Henc) as (_ & _ & _ & H).
  exact H.
Qed.

Lemma wire_layout_below_wrap_witness :
  exists img',
    encode carrier_10x10 payload_AB = Encoded img' /\
    lsb img' 1 = true /\ lsb img' 32 = true /\ lsb img' 41 = true.
Proof.
  eexists. split; [vm_compute; reflexivity|].
  match goal with
  | |- lsb ?i _ = _ /\ _ =>
      destruct (wire_layout_below_wrap carrier_10x10 i payload_AB carrier_10x10_wf)
        as (Hheader & Hpayload); [vm_compute; congruence | vm_compute; reflexivity |]
  end.
  split; [exact (Hheader 1 ltac:(lia))|]. split.
  - exact (Hpayload 0%nat 65 0 eq_refl ltac:(lia)).
  - exact (Hpayload 1%nat 66 1 eq_refl ltac:(lia)).
Defined.

Section Idempotence.

Lemma embedBit_same (colorChannel : Z) (bit : bool) :
  Z.testbit colorChannel 0 = bit -> embedBit colorChannel bit = colorChannel.
Proof.
  intros <-. apply Z.bits_inj'. intros k Hk. rewrite embedBit_testbit by done.
  by destruct (Z.eqb_spec k 0) as [->|].
Qed.

Lemma set_slot_same (img : sf.Image) (s : Z) : set_slot img s (slot img s) = img.
Proof.
  unfold set_slot, slot.
  destruct (sf.pixels img !! Z.to_nat (s / 3)) as [color|] eqn:Hcolor; [|done].
  replace (with_channel color (s mod 3) (channel color (s mod 3))) with color.
  - rewrite list_insert_id by done. by destruct img.
  - destruct color. by destruct (mod3_cases s) as [-> | [-> | ->]].
Qed.

(** Embedding bits that are already in place leaves the image as it is. *)
Lemma embed_stream_fixed (bits : list bool) (img : sf.Image) (c : Z) :
  wf_image img -> 0 <= c < 2 ^ 32 ->
  c + Z.of_nat (length bits) <= capacityBits img ->
  c + Z.of_nat (length bits) <= 2 ^ 32 ->
  (forall (j : nat) bit, bits !! j = Some bit -> lsb img (c + Z.of_nat j) = bit) ->
  embed_stream bits img c = Done (img, wrap32 (c + Z.of_nat (length bits))).
Proof.
  intros Hwf. revert c. induction bits as [|bit bits IH]; intros c Hc Hcap Hwrap Hbits.
  - cbn [embed_stream length]. by rewrite Z.add_0_r, wrap32_small by lia.
  - cbn [length] in Hcap, Hwrap. cbn [embed_stream].
    rewrite embed_at_slot by (done || lia).
    rewrite (proj2 (Z.ltb_lt c _)) by lia. cbn [mbind outcome_bind].
    rewrite embedBit_same.
    2:{ rewrite <- (Hbits 0%nat bit eq_refl). unfold lsb. do 2 f_equal. lia. }
    rewrite set_slot_same.
    destruct bits as [|bit' bits].
    + cbn [embed_stream length]. done.
    + cbn [length] in Hcap, Hwrap. rewrite wrap32_small by lia.
      rewrite IH.
      * do 3 f_equal. cbn [length]. lia.
      * lia.
      * cbn [length]. lia.
      * cbn [length]. lia.
      * intros j b Hj. rewrite <- (Hbits (S j) b Hj). f_equal. lia.
Qed.

End Idempotence.

(** X7.  [encode] is idempotent: encoding the same payload (of at most
    2^32 bits with its header) into the image [encode] produced succeeds and
    returns that image unchanged. *)
Theorem encode_idempotent (img img' : sf.Image) (secretData : list Z) :
  wf_image img ->
  32 + 8 * Z.of_nat (length secretData) <= 2 ^ 32 ->
  encode img secretData = Encoded img' ->
  encode img' secretData = Encoded img'.
Proof.
  intros Hwf Hn Henc.
  destruct (encode_wire_layout img img' secretData Hwf Hn Henc)
    as (Hwf' & Hcap' & Hfit & _).
  apply encoded_inv in Henc as (_ & c' & Hrun).
  pose proof (wire_bits_length secretData) as Hlen.
  destruct (embed_stream_nowrap (wire_bits secretData) img 0)
    as (img1 & Hrun1 & Hbits & _); try (done || lia).
  rewrite Hrun in Hrun1. injection Hrun1 as <- _.
  rewrite encode_stream, capacity_check_exact by (done || lia).
  rewrite (proj2 (Z.ltb_ge _ _)) by lia.
  rewrite embed_stream_fixed; [done | done | lia | lia | lia | done].
Qed.

Lemma encode_idempotent_witness :
  exists img',
    encode carrier_10x10 payload_AB = Encoded img' /\
    encode img' payload_AB = Encoded img'.
Proof.
  eexists. split; [vm_compute; reflexivity|].
  apply (encode_idempotent carrier_10x10 _ payload_AB carrier_10x10_wf).
  - vm_compute. congruence.
  - vm_compute. reflexivity.
Defined.

(** X8.  A later [encode] replaces an earlier one: after encoding [first]
    and then [second] into the result, [decode] returns [second] (the
    second payload being bytes that fit, at most 2^32 bits with header). *)
Theorem reencode_replaces (img img1 : sf.Image) (first second : list Z) :
  wf_image img ->
  encode img first = Encoded img1 ->
  Forall is_byte second ->
  32 + 8 * Z.of_nat (length second) <= capacityBits img ->
  32 + 8 * Z.of_nat (length second) <= 2 ^ 32 ->
  exists img2,
    encode img1 second = Encoded img2 /\
    decode img2 = match second with [] => EmptyPayload | _ => Decoded second end.
Proof.
  intros Hwf Henc Hbytes Hfit Hn.
  apply encoded_inv in Henc as (_ & c' & Hrun).
  destruct (embed_stream_frame (wire_bits first) img img1 0 c' 0)
    as (Hwf1 & Hx & Hy & _); [done | lia | done |].
  apply decode_encode_bounded; try done.
  unfold capacityBits. rewrite Hx, Hy. exact Hfit.
Qed.

Lemma reencode_replaces_witness :
  exists img1 img2,
    encode carrier_10x10 [1; 2; 3] = Encoded img1 /\
    encode img1 payload_AB = Encoded img2 /\
    decode img2 = Decoded payload_AB.
Proof.
  eexists. 
  match goal with
  | |- exists img2, encode _ _ = Encoded ?i1 /\ _ =>
      assert (encode carrier_10x10 [1; 2; 3] = Encoded i1) as Henc
        by (vm_compute; reflexivity);
      destruct (reencode_replaces carrier_10x10 i1 [1; 2; 3] payload_AB
                  carrier_10x10_wf Henc) as (img2 & Henc2 & Hdec)
  end.
  - repeat constructor; unfold is_byte; lia.
  - vm_compute. congruence.
  - vm_compute. congruence.
  - exists img2. split; [exact Henc|]. split; [exact Henc2 | exact Hdec].
Defined.

(** X9.  Distortion: a successful [encode] moves every colour channel of
    every pixel by at most one, and a channel that was a byte is a byte
    afterwards. *)
Theorem encode_distortion (img img' : sf.Image) (secretData : list Z) (s : Z) :
  wf_image img ->
  encode img secretData = Encoded img' ->
  0 <= s ->
  -1 <= slot img' s - slot img s <= 1 /\
  (0 <= slot img s < 256 -> 0 <= slot img' s < 256).
Proof.
  intros Hwf Henc Hs. apply encoded_inv in Henc as (_ & c' & Hrun).
  destruct (embed_stream_frame (wire_bits secretData) img img' 0 c' 0)
    as (_ & _ & _ & _ & _ & Hhigh & _); [done | lia | done |].
  specialize (Hhigh s Hs). rewrite !Z.shiftr_div_pow2 in Hhigh by lia.
  change (2 ^ 1) with 2 in Hhigh. split; [|intros Hbyte]; div_lia.
Qed.

Lemma encode_distortion_witness :
  exists img',
    encode carrier_10x10 payload_AB = Encoded img' /\
    -1 <= slot img' 1 - slot carrier_10x10 1 <= 1.
Proof.
  eexists. split; [vm_compute; reflexivity|].
  match goal with
  | |- _ <= slot ?i _ - _ <= _ =>
      destruct (encode_distortion carrier_10x10 i payload_AB 1 carrier_10x10_wf)
        as (Hdiff & _); [vm_compute; reflexivity | lia | exact Hdiff]
  end.
Defined.

(** ** [decode] on an arbitrary image *)

Section AnyImage.

Lemma value_at_bits (img : sf.Image) (c : Z) (count : nat) (k : Z) :
  0 <= k ->
  Z.testbit (value_at img c count) k =
  if k <? Z.of_nat count then lsb img (c + k) else false.
Proof.
  revert c k. induction count as [|count IH]; intros c k Hk.
  - cbn [value_at]. rewrite Z.bits_0. by rewrite (proj2 (Z.ltb_ge _ _)) by lia.
  - cbn [value_at]. destruct (Z.eqb_spec k 0) as [->|Hne].
    + rewrite Z.testbit_0_r, Z.add_0_r. done.
    + replace k with (Z.succ (k - 1)) at 1 by lia.
      rewrite Z.testbit_succ_r, IH by lia.
      destruct (Z.ltb_spec (k - 1) (Z.of_nat count)), (Z.ltb_spec k (Z.of_nat (S count)));
        try lia; try done. f_equal. lia.
Qed.

Lemma value_at_range (img : sf.Image) (c : Z) (count : nat) :
  0 <= value_at img c count < 2 ^ Z.of_nat count.
Proof.
  apply narrow_range; [lia|]. intros k Hk. rewrite value_at_bits by lia.
  by rewrite (proj2 (Z.ltb_ge _ _)) by lia.
Qed.

Lemma bytes_at_length (img : sf.Image) (c : Z) (n : nat) :
  length (bytes_at img c n) = n.
Proof. revert c. induction n as [|n IH]; intros c; cbn [bytes_at length]; by rewrite ?IH. Qed.

Lemma bytes_at_lookup (img : sf.Image) (c : Z) (n j : nat) (byte : Z) :
  bytes_at img c n !! j = Some byte -> byte = value_at img (c + 8 * Z.of_nat j) 8.
Proof.
  revert c j. induction n as [|n IH]; intros c j Hj; [done|].
  cbn [bytes_at] in Hj. destruct j as [|j].
  - change (Some (value_at img c 8) = Some byte) in Hj.
    replace (c + 8 * Z.of_nat 0) with c by lia. congruence.
  - apply IH in Hj. rewrite Hj. f_equal. lia.
Qed.

Lemma bytes_at_bytes (img : sf.Image) (c : Z) (n : nat) :
  Forall is_byte (bytes_at img c n).
Proof.
  revert c. induction n as [|n IH]; intros c; cbn [bytes_at]; constructor; [|done].
  apply (value_at_range img c 8).
Qed.

(** The header loop returns [value_at img 0 32]. *)
Lemma extract_header_value (img : sf.Image) :
  wf_image img -> 32 <= capacityBits img ->
  extract_value (2 ^ 32) 32 0 0 img 0 = Done (value_at img 0 32, 32).
Proof.
  intros Hwf Hcap. destruct (extract_header img Hwf Hcap) as (n & Hrun & Hn & Hbits).
  rewrite Hrun. do 2 f_equal. apply Z.bits_inj'. intros k Hk.
  rewrite value_at_bits by done. destruct (Z.ltb_spec k (Z.of_nat 32)).
  - apply Hbits. lia.
  - apply (range_narrow 32); [done | lia].
Qed.

(** The accumulator of an extraction loop stays within its width. *)
Lemma extract_value_range (w : Z) (count : nat) (i v : Z) (img : sf.Image) (c v' c' : Z) :
  0 <= w -> 0 <= v < 2 ^ w ->
  extract_value (2 ^ w) count i v img c = Done (v', c') ->
  0 <= v' < 2 ^ w.
Proof.
  intros Hw. revert i v c. induction count as [|count IH]; intros i v c Hv Hrun.
  - by injection Hrun as <- _.
  - cbn [extract_value] in Hrun. destruct (extract_at img c) as [[bit c1]|x y]; [|done].
    cbn [mbind outcome_bind] in Hrun. eapply IH; [|exact Hrun].
    destruct bit; [|done]. apply Z.mod_pos_bound. lia.
Qed.

Lemma extract_data_bytes (count : nat) (img : sf.Image) (c : Z) (acc out : list Z) :
  Forall is_byte acc ->
  extract_data count img c acc = Done out ->
  Forall is_byte out.
Proof.
  revert c acc. induction count as [|count IH]; intros c acc Hacc Hrun.
  - by injection Hrun as <-.
  - cbn [extract_data] in Hrun.
    destruct (extract_value (2 ^ 8) 8 0 0 img c) as [[v c1]|x y] eqn:Hv; [|done].
    cbn [mbind outcome_bind] in Hrun. eapply IH; [|exact Hrun].
    apply Forall_app. split; [done|]. constructor; [|done].
    apply (extract_value_range 8 8 0 0 img c v c1); [lia | lia | exact Hv].
Qed.

(** What a [Decoded] result says about the run of [decode]. *)
Lemma decoded_inv (img : sf.Image) (secretData : list Z) :
  decode img = Decoded secretData ->
  exists n c,
    extract_value (2 ^ 32) 32 0 0 img 0 = Done (n, c) /\
    (wrap64 (wrap64 (n * 8) + 32) >? capacity img) = false /\
    n <> 0 /\
    extract_data (Z.to_nat n) img c [] = Done secretData.
Proof.
  unfold decode. destruct (extract_value _ _ _ _ img 0) as [[n c]|x y]; [|done].
  destruct (_ >? _) eqn:Hcheck; [done|].
  destruct (Z.eqb_spec n 0); [done|].
  destruct (extract_data _ img c []) as [out|x y] eqn:Hrun; [|done].
  intros [= ->]. by exists n, c.
Qed.

Lemma extract_at_lsb_only (img1 img2 : sf.Image) (s : Z) :
  wf_image img1 -> wf_image img2 ->
  sf.size_x img1 = sf.size_x img2 -> sf.size_y img1 = sf.size_y img2 ->
  (forall s, 0 <= s -> lsb img1 s = lsb img2 s) ->
  0 <= s -> extract_at img1 s = extract_at img2 s.
Proof.
  intros Hwf1 Hwf2 Hx Hy Hlsb Hs. rewrite !extract_at_slot by done.
  unfold capacityBits. by rewrite Hx, Hy, Hlsb by done.
Qed.

Lemma extract_value_lsb_only (img1 img2 : sf.Image) (m : Z) (count : nat) (i v c : Z) :
  wf_image img1 -> wf_image img2 ->
  sf.size_x img1 = sf.size_x img2 -> sf.size_y img1 = sf.size_y img2 ->
  (forall s, 0 <= s -> lsb img1 s = lsb img2 s) ->
  0 <= c -> extract_value m count i v img1 c = extract_value m count i v img2 c.
Proof.
  intros Hwf1 Hwf2 Hx Hy Hlsb. revert i v c.
  induction count as [|count IH]; intros i v c Hc; [done|].
  cbn [extract_value]. rewrite (extract_at_lsb_only img1 img2) by done.
  rewrite extract_at_slot by done.
  destruct (_ <? _); [|done]. cbn [mbind outcome_bind].
  apply IH. apply wrap32_range.
Qed.

Lemma extract_value_cursor (m : Z) (count : nat) (i v : Z) (img : sf.Image) (c v' c' : Z) :
  0 <= c -> extract_value m count i v img c = Done (v', c') -> 0 <= c'.
Proof.
  revert i v c. induction count as [|count IH]; intros i v c Hc Hrun.
  - by injection Hrun as _ <-.
  - cbn [extract_value] in Hrun. unfold extract_at in Hrun.
    destruct (sf.getPixel img _ _) as [color|x y]; [|done].
    cbn [mbind outcome_bind mret outcome_ret] in Hrun.
    eapply IH; [|exact Hrun]. apply wrap32_range.
Qed.

Lemma extract_data_lsb_only (img1 img2 : sf.Image) (count : nat) (c : Z) (acc : list Z) :
  wf_image img1 -> wf_image img2 ->
  sf.size_x img1 = sf.size_x img2 -> sf.size_y img1 = sf.size_y img2 ->
  (forall s, 0 <= s -> lsb img1 s = lsb img2 s) ->
  0 <= c -> extract_data count img1 c acc = extract_data count img2 c acc.
Proof.
  intros Hwf1 Hwf2 Hx Hy Hlsb. revert c acc.
  induction count as [|count IH]; intros c acc Hc; [done|].
  cbn [extract_data]. rewrite (extract_value_lsb_only img1 img2) by done.
  destruct (extract_value (2 ^ 8) 8 0 0 img2 c) as [[v c1]|x y] eqn:Hv; [|done].
  cbn [mbind outcome_bind]. apply IH.
  by apply (extract_value_cursor (2 ^ 8) 8 0 0 img2 c v c1).
Qed.

End AnyImage.

(** X10.  [decode] of any image with at least 32 and at most 2^32 slots,
    encoded or not, is determined by the hidden bits alone: with [n] the
    number spelled by slots 0..31, the result is [InvalidLength] when
    [32 + 8 * n] exceeds the capacity, [EmptyPayload] when [n = 0], and
    otherwise the [n] bytes spelled by the slots from 32 on. *)
Theorem decode_any_image (img : sf.Image) :
  wf_image img ->
  32 <= capacityBits img <= 2 ^ 32 ->
  decode img =
  let n := value_at img 0 32 in
  if 32 + 8 * n >? capacityBits img then InvalidLength
  else if n =? 0 then EmptyPayload
  else Decoded (bytes_at img 32 (Z.to_nat n)).
Proof.
  intros Hwf Hcap. cbn zeta. unfold decode.
  rewrite extract_header_value, capacity_exact by (done || lia).
  pose proof (value_at_range img 0 32) as Hn. change (2 ^ Z.of_nat 32) with (2 ^ 32) in Hn.
  rewrite wrap64_required by done.
  destruct (Z.gtb_spec (32 + 8 * value_at img 0 32) (capacityBits img)); [done|].
  destruct (Z.eqb_spec (value_at img 0 32) 0); [done|].
  set (len := value_at img 0 32) in *.
  rewrite <- (bytes_at_length img 32 (Z.to_nat len)) at 1.
  rewrite (extract_data_nowrap (bytes_at img 32 (Z.to_nat len)) img 32 []); try done.
  - rewrite bytes_at_length. lia.
  - rewrite bytes_at_length. lia.
  - apply bytes_at_bytes.
  - intros j byte k Hj Hk. apply bytes_at_lookup in Hj as ->.
    rewrite value_at_bits by lia. rewrite (proj2 (Z.ltb_lt _ _)) by lia. done.
Qed.

Lemma carrier_one_wf : wf_image carrier_one.
Proof. split; vm_compute; (done || (split; congruence)). Defined.

Lemma decode_any_image_witness : decode carrier_one = Decoded [0].
Proof.
  rewrite (decode_any_image carrier_one carrier_one_wf).
  - vm_compute. reflexivity.
  - vm_compute. split; congruence.
Defined.

(** X11.  [decode] looks at nothing but the dimensions and the
    least-significant bits of the colour channels: two images of the same
    size whose slots agree in their least-significant bits decode alike,
    whatever their alpha channels and upper seven bits. *)
Theorem decode_lsb_plane_only (img1 img2 : sf.Image) :
  wf_image img1 -> wf_image img2 ->
  sf.size_x img1 = sf.size_x img2 ->
  sf.size_y img1 = sf.size_y img2 ->
  (forall s, 0 <= s -> lsb img1 s = lsb img2 s) ->
  decode img1 = decode img2.
Proof.
  intros Hwf1 Hwf2 Hx Hy Hlsb. unfold decode.
  rewrite (extract_value_lsb_only img1 img2) by (done || lia).
  destruct (extract_value _ _ _ _ img2 0) as [[n c]|x y] eqn:Hrun; [|done].
  unfold capacity. rewrite Hx, Hy.
  destruct (_ >? _); [done|]. destruct (n =? 0); [done|].
  rewrite (extract_data_lsb_only img1 img2); try done.
  by apply (extract_value_cursor (2 ^ 32) 32 0 0 img2 0 n c).
Qed.

Lemma uniform_lsb (W H : Z) (n : nat) (color : sf.Color) (s : Z) :
  (Z.to_nat (s / 3) < n)%nat ->
  lsb (sf.mkImage W H (replicate n color)) s = Z.testbit (channel color (s mod 3)) 0.
Proof.
  intros Hs. unfold lsb, slot. cbn [sf.pixels].
  by rewrite lookup_replicate_2 by done.
Qed.

Lemma uniform_lsb_outside (W H : Z) (n : nat) (color : sf.Color) (s : Z) :
  (n <= Z.to_nat (s / 3))%nat ->
  lsb (sf.mkImage W H (replicate n color)) s = false.
Proof.
  intros Hs. unfold lsb, slot. cbn [sf.pixels].
  assert (replicate n color !! Z.to_nat (s / 3) = None) as ->; [|done].
  apply lookup_replicate_None. lia.
Qed.

Lemma carrier_black_wf : wf_image carrier_black.
Proof. split; vm_compute; (done || (split; congruence)). Defined.

Lemma carrier_white_wf : wf_image carrier_white.
Proof. split; vm_compute; (done || (split; congruence)). Defined.

Lemma even_carriers_lsb (s : Z) : lsb carrier_4x4 s = lsb carrier_black s.
Proof.
  unfold carrier_4x4, carrier_black.
  destruct (Nat.lt_ge_cases (Z.to_nat (s / 3)) 16).
  - rewrite !uniform_lsb by done.
    by destruct (mod3_cases s) as [-> | [-> | ->]].
  - by rewrite !uniform_lsb_outside by done.
Defined.

(** A grey and a black carrier, all channels even, decode alike. *)
Lemma decode_lsb_plane_only_witness : decode carrier_4x4 = decode carrier_black.
Proof.
  apply (decode_lsb_plane_only carrier_4x4 carrier_black carrier_4x4_wf carrier_black_wf).
  - reflexivity.
  - reflexivity.
  - intros s _. apply even_carriers_lsb.
Defined.

(** X12.  Whatever image [decode] is given, a [Decoded] result is never
    empty, consists of bytes, and is no longer than the image can hold:
    [32 + 8 * length <= W * H * 3]. *)
Theorem decode_output_shape (img : sf.Image) (secretData : list Z) :
  wf_image img ->
  decode img = Decoded secretData ->
  secretData <> [] /\
  Forall is_byte secretData /\
  32 + 8 * Z.of_nat (length secretData) <= capacityBits img.
Proof.
  intros Hwf Hdec. apply decoded_inv in Hdec as (n & c & Hhead & Hcheck & Hn0 & Hrun).
  destruct (header_bits img n c Hwf Hhead) as (_ & _ & Hn & _).
  rewrite capacity_exact, wrap64_required in Hcheck by done.
  pose proof (extract_data_length _ _ _ _ _ Hrun) as Hlen. cbn [length] in Hlen.
  split; [|split].
  - intros ->. cbn [length] in Hlen. lia.
  - by apply (extract_data_bytes _ _ _ _ _ (Forall_nil_2 is_byte) Hrun).
  - destruct (Z.gtb_spec (32 + 8 * n) (capacityBits img)); [done | lia].
Qed.

Lemma decode_output_shape_witness :
  [0] <> [] /\ Forall is_byte [0] /\ 32 + 8 * Z.of_nat (length [0]) <= capacityBits carrier_one.
Proof.
  apply (decode_output_shape carrier_one [0] carrier_one_wf).
  vm_compute. reflexivity.
Defined.

(** X13.  Images that never went through [encode]: if the first 32 slots
    are all even (a black image, say), [decode] reports [EmptyPayload]; if
    they are all odd (a white image) the header reads 2^32 - 1 and [decode]
    reports [InvalidLength] on every image of fewer than 2^35 + 24 slots. *)
Theorem decode_unencoded_image (img : sf.Image) :
  wf_image img ->
  32 <= capacityBits img ->
  ((forall i, 0 <= i < 32 -> lsb img i = false) -> decode img = EmptyPayload) /\
  ((forall i, 0 <= i < 32 -> lsb img i = true) ->
   capacityBits img < 32 + 8 * (2 ^ 32 - 1) -> decode img = InvalidLength).
Proof.
  intros Hwf Hcap. unfold decode.
  rewrite extract_header_value, capacity_exact by done.
  pose proof (value_at_range img 0 32) as Hn. change (2 ^ Z.of_nat 32) with (2 ^ 32) in Hn.
  rewrite wrap64_required by done. split.
  - intros Heven. assert (value_at img 0 32 = 0) as ->.
    { apply Z.bits_inj'. intros k Hk. rewrite value_at_bits, Z.bits_0 by done.
      destruct (Z.ltb_spec k (Z.of_nat 32)); [apply Heven; lia | done]. }
    destruct (Z.gtb_spec (32 + 8 * 0) (capacityBits img)); [lia | done].
  - intros Hodd Hsmall. assert (value_at img 0 32 = Z.ones 32) as ->.
    { apply Z.bits_inj'. intros k Hk. rewrite value_at_bits by done.
      destruct (Z.ltb_spec k (Z.of_nat 32)).
      - rewrite Z.ones_spec_low by lia. apply Hodd. lia.
      - by rewrite Z.ones_spec_high by lia. }
    change (Z.ones 32) with (2 ^ 32 - 1).
    destruct (Z.gtb_spec (32 + 8 * (2 ^ 32 - 1)) (capacityBits img)); [done | lia].
Qed.

Lemma decode_unencoded_image_witness :
  decode carrier_black = EmptyPayload /\ decode carrier_white = InvalidLength.
Proof.
  split.
  - apply (decode_unencoded_image carrier_black carrier_black_wf);
      [vm_compute; congruence|].
    intros i Hi. unfold carrier_black.
    rewrite uniform_lsb by (assert (0 <= i / 3 < 16) by div_lia; lia).
    by destruct (mod3_cases i) as [-> | [-> | ->]].
  - apply (decode_unencoded_image carrier_white carrier_white_wf);
      [vm_compute; congruence | | vm_compute; reflexivity].
    intros i Hi. unfold carrier_white.
    rewrite uniform_lsb by (assert (0 <= i / 3 < 16) by div_lia; lia).
    by destruct (mod3_cases i) as [-> | [-> | ->]].
Defined.

(** * The status line of the two button handlers *)

Section StatusLine.

Lemma c_str_no_nul (s : string) : Forall (fun ch => ch <> NUL) (c_str s).
Proof.
  induction s as [|ch s IH]; cbn [c_str]; [constructor|].
  destruct (Ascii.eqb_spec ch NUL); by constructor.
Qed.

Lemma printed_terminated (src rest : list Ascii.ascii) :
  Forall (fun ch => ch <> NUL) src -> printed (src ++ NUL :: rest) = Some src.
Proof.
  induction 1 as [|ch src Hch _ IH]; [done|].
  cbn [app printed]. destruct (Ascii.eqb_spec ch NUL); [done|]. by rewrite IH.
Qed.

Lemma printed_unterminated (chars : list Ascii.ascii) :
  Forall (fun ch => ch <> NUL) chars -> printed chars = None.
Proof.
  induction 1 as [|ch chars Hch _ IH]; [done|].
  cbn [printed]. destruct (Ascii.eqb_spec ch NUL); [done|]. by rewrite IH.
Qed.

Lemma list_ascii_length (s : string) :
  length (list_ascii_of_string s) = String.length s.
Proof. induction s as [|ch s IH]; cbn; by rewrite ?IH. Qed.

Lemma list_ascii_append (s1 s2 : string) :
  list_ascii_of_string (s1 ++ s2) = list_ascii_of_string s1 ++ list_ascii_of_string s2.
Proof. induction s1 as [|ch s1 IH]; cbn; by rewrite ?IH. Qed.

Lemma nul_free_append (s1 s2 : string) :
  nul_free s1 -> nul_free s2 -> nul_free (s1 ++ s2).
Proof.
  unfold nul_free. intros H1 H2. induction s1 as [|ch s1 IH]; [done|].
  cbn [append c_str list_ascii_of_string] in *.
  destruct (Ascii.eqb ch NUL); [done|]. injection H1 as H1. by rewrite IH.
Qed.

Lemma show_result_printed (status : list Ascii.ascii) (result : string) :
  length status = 256%nat ->
  printed (show_result status result) =
  if (length (c_str result) <? 256)%nat then Some (c_str result) else None.
Proof.
  intros Hlen. unfold show_result, strncpy.
  rewrite (drop_ge status) by lia. rewrite app_nil_r.
  pose proof (c_str_no_nul result) as Hsrc.
  destruct (Nat.ltb_spec (length (c_str result)) 256) as [Hlt|Hge].
  - rewrite take_app_ge, take_replicate by lia.
    replace (Nat.min (256 - length (c_str result)) 256)
      with (S (255 - length (c_str result))) by lia.
    cbn [replicate]. by apply printed_terminated.
  - rewrite take_app_le by lia. apply printed_unterminated. by apply Forall_take.
Qed.

Lemma status_line_shown_aux (status : list Ascii.ascii) (result : string) :
  length status = 256%nat ->
  nul_free result ->
  printed (show_result status result) =
  if (String.length result <? 256)%nat then Some (list_ascii_of_string result) else None.
Proof.
  intros Hlen Hfree. rewrite show_result_printed by done.
  by rewrite Hfree, list_ascii_length.
Qed.

End StatusLine.

(** X14.  After a button handler has copied a result into the 256-byte
    status array with [strncpy], the status line shows the whole result when
    the result has fewer than 256 characters; with 256 characters or more
    the array holds no terminating NUL and printing it reads past its end. *)
Theorem status_line_shown (status : list Ascii.ascii) (result : string) :
  length status = 256%nat ->
  nul_free result ->
  printed (show_result status result) =
  if (String.length result <? 256)%nat then Some (list_ascii_of_string result) else None.
Proof. apply status_line_shown_aux. Qed.

Lemma status_line_shown_witness :
  printed (show_result status_ready "Error: Could not open secret file.")
  = Some (list_ascii_of_string "Error: Could not open secret file.").
Proof.
  rewrite (status_line_shown status_ready "Error: Could not open secret file.");
    vm_compute; reflexivity.
Defined.

(** X15.  The status line after the Encode button.  Every error result of
    [encode] is shown in full.  The success result is the 35-character
    message followed by the output path: it is shown in full for paths of
    at most 220 characters; for a longer path the status array is left
    without a terminating NUL. *)
Theorem encode_status_line (status : list Ascii.ascii)
    (carrierImage : option sf.Image) (secretFile : option (list Z))
    (saveToFile : sf.Image -> bool) (outputPath result : string) :
  length status = 256%nat ->
  nul_free outputPath ->
  encode_file carrierImage secretFile saveToFile outputPath = Done result ->
  (String.prefix "Error:" result = true /\
   printed (show_result status result) = Some (list_ascii_of_string result)) \/
  (result = ("Success! Data encoded and saved to " ++ outputPath)%string /\
   printed (show_result status result) =
   if (String.length outputPath <=? 220)%nat
   then Some (list_ascii_of_string result) else None).
Proof.
  intros Hlen Hpath Hrun. unfold encode_file in Hrun.
  assert (forall msg : string,
            nul_free msg -> (String.length msg < 256)%nat ->
            printed (show_result status msg) = Some (list_ascii_of_string msg)) as Hshort.
  { intros msg Hfree Hmsg. rewrite status_line_shown_aux by done.
    by rewrite (proj2 (Nat.ltb_lt _ _)) by done. }
  destruct carrierImage as [carrierImage|];
    [|injection Hrun as <-; left; split; [done | apply Hshort; [reflexivity | cbn; lia]]].
  destruct secretFile as [secretData|];
    [|injection Hrun as <-; left; split; [done | apply Hshort; [reflexivity | cbn; lia]]].
  destruct (encode carrierImage secretData) as [img|img|x y]; [| |done].
  { injection Hrun as <-; left; split; [done | apply Hshort; [reflexivity | cbn; lia]]. }
  destruct (saveToFile img);
    [|injection Hrun as <-; left; split; [done | apply Hshort; [reflexivity | cbn; lia]]].
  assert (result = ("Success! Data encoded and saved to " ++ outputPath)%string) as ->
    by (unfold mret, outcome_ret in Hrun; congruence).
  right. split; [done|].
  assert (nul_free ("Success! Data encoded and saved to " ++ outputPath)) as Hfree
    by (by apply nul_free_append).
  rewrite status_line_shown_aux by done.
  rewrite <- list_ascii_length, list_ascii_append, length_app, !list_ascii_length.
  change (String.length "Success! Data encoded and saved to ") with 35%nat.
  destruct (Nat.leb_spec (String.length outputPath) 220).
  - by rewrite (proj2 (Nat.ltb_lt _ _)) by lia.
  - by rewrite (proj2 (Nat.ltb_ge _ _)) by lia.
Qed.

Lemma encode_status_line_witness :
  encode_file (Some carrier_10x10) (Some payload_AB) (fun _ => true) path_221
  = Done ("Success! Data encoded and saved to " ++ path_221)%string /\
  printed (show_result status_ready ("Success! Data encoded and saved to " ++ path_221))
  = None.
Proof.
  split; [vm_compute; reflexivity|].
  destruct (encode_status_line status_ready (Some carrier_10x10) (Some payload_AB)
              (fun _ => true) path_221
              ("Success! Data encoded and saved to " ++ path_221))
    as [[Hprefix _]|[_ Hshown]].
  - reflexivity.
  - vm_compute. reflexivity.
  - vm_compute. reflexivity.
  - vm_compute in Hprefix. discriminate Hprefix.
  - exact Hshown.
Defined.

(** X16.  The status line after the Decode button.  Every error result
    and the empty-payload warning of [decode] are shown in full.  The
    success result is the 31-character message followed by the output path:
    it is shown in full for paths of at most 224 characters; for a longer
    path the status array is left without a terminating NUL. *)
Theorem decode_status_line (status : list Ascii.ascii)
    (stegoImage : option sf.Image) (outputFile : bool) (outputPath result : string) :
  length status = 256%nat ->
  nul_free outputPath ->
  decode_file stegoImage outputFile outputPath = Done result ->
  ((String.prefix "Error:" result = true \/ String.prefix "Warning:" result = true) /\
   printed (show_result status result) = Some (list_ascii_of_string result)) \/
  (result = ("Success! Decoded data saved to " ++ outputPath)%string /\
   printed (show_result status result) =
   if (String.length outputPath <=? 224)%nat
   then Some (list_ascii_of_string result) else None).
Proof.
  intros Hlen Hpath Hrun. unfold decode_file in Hrun.
  assert (forall msg : string,
            nul_free msg -> (String.length msg < 256)%nat ->
            printed (show_result status msg) = Some (list_ascii_of_string msg)) as Hshort.
  { intros msg Hfree Hmsg. rewrite status_line_shown_aux by done.
    by rewrite (proj2 (Nat.ltb_lt _ _)) by done. }
  destruct stegoImage as [stegoImage|];
    [|injection Hrun as <-; left; split;
      [by left | apply Hshort; [reflexivity | cbn; lia]]].
  destruct (decode stegoImage) as [| |secretData|x y]; [| | |done].
  { injection Hrun as <-; left; split;
      [by left | apply Hshort; [reflexivity | cbn; lia]]. }
  { injection Hrun as <-; left; split;
      [by right | apply Hshort; [reflexivity | cbn; lia]]. }
  destruct outputFile;
    [|injection Hrun as <-; left; split;
      [by left | apply Hshort; [reflexivity | cbn; lia]]].
  assert (result = ("Success! Decoded data saved to " ++ outputPath)%string) as ->
    by (unfold mret, outcome_ret in Hrun; congruence).
  right. split; [done|].
  assert (nul_free ("Success! Decoded data saved to " ++ outputPath)) as Hfree
    by (by apply nul_free_append).
  rewrite status_line_shown_aux by done.
  rewrite <- list_ascii_length, list_ascii_append, length_app, !list_ascii_length.
  change (String.length "Success! Decoded data saved to ") with 31%nat.
  destruct (Nat.leb_spec (String.length outputPath) 224).
  - by rewrite (proj2 (Nat.ltb_lt _ _)) by lia.
  - by rewrite (proj2 (Nat.ltb_ge _ _)) by lia.
Qed.

Lemma decode_status_line_witness :
  decode_file (Some carrier_black) true "decoded_file"
  = Done "Warning: Decoded size is 0. Nothing to extract."%string /\
  printed (show_result status_ready "Warning: Decoded size is 0. Nothing to extract.")
  = Some (list_ascii_of_string "Warning: Decoded size is 0. Nothing to extract.").
Proof.
  split; [vm_compute; reflexivity|].
  destruct (decode_status_line status_ready (Some carrier_black) true "decoded_file"
              "Warning: Decoded size is 0. Nothing to extract.")
    as [[_ Hshown]|[Hsuccess _]].
  - reflexivity.
  - vm_compute. reflexivity.
  - vm_compute. reflexivity.
  - exact Hshown.
  - vm_compute in Hsuccess. discriminate Hsuccess.
Defined.
